(** * secret-link: the note client ([src/lib/secretnotes.ts]) and the
      autosave effect of the index screen, embedded and verified.

    The development follows the source files:
    - [Js]        the JavaScript values and string primitives the code uses;
    - [Api]       [src/lib/secretnotes.ts]: [normalizePhrase], [handleJson],
                  the eight exported operations and [arrayBufferToBase64];
    - [Autosave]  the debounced autosave [useEffect] of [IndexScreen];
    - [Reference] a concrete platform and scripted servers for the examples.
    The facts come after the definitions: [JsFacts], [Base64Facts],
    [ApiFacts] and [AutosaveFacts], each followed by its examples.

    Strings are sequences of code units; the model carries the code units
    below 256 ([string] of the Standard Library). *)

From Stdlib Require Import String Ascii List Bool Arith NArith ZArith Lia DecimalString.
From Stdlib.Strings Require Import Byte.
From Equations Require Import Equations.
Import ListNotations.
Local Open Scope string_scope.
Set Warnings "-register-all".

(* ===================================================================== *)
(** ** JavaScript values and primitives *)
(* ===================================================================== *)

Module Js.

(** JSON numbers are IEEE doubles; the code never computes with them, it
    only tests their truthiness, prints them in a template literal and
    compares them with [Object.is].  They stay abstract. *)
Class JsNumber : Type := {
  JsNum : Type;
  number_truthy : JsNum -> bool;       (* false for 0, -0 and NaN *)
  number_toString : JsNum -> string;
  number_is : JsNum -> JsNum -> bool   (* Object.is *)
}.

Section Values.
Context `{JsNumber}.

(** What [JSON.parse] returns, what a [catch] clause can bind, and the
    [Error] objects the client throws itself.  An object keeps its fields
    in the order they were written; a later binding of a key hides an
    earlier one, as in [JSON.parse]. *)
Inductive JsValue : Type :=
| JUndefined
| JNull
| JBool (b : bool)
| JNumber (n : JsNum)
| JStr (s : string)
| JArr (items : list JsValue)
| JObj (fields : list (string * JsValue))
| JError (message : string).

Definition nonempty (s : string) : bool :=
  match s with EmptyString => false | String _ _ => true end.

(** ToBoolean. *)
Definition truthy (v : JsValue) : bool :=
  match v with
  | JUndefined | JNull => false
  | JBool b => b
  | JNumber n => number_truthy n
  | JStr s => nonempty s
  | JArr _ | JObj _ | JError _ => true
  end.

(** [a || b]. *)
Definition js_or (a b : JsValue) : JsValue := if truthy a then a else b.

(** The last binding of [k] in a field list. *)
Fixpoint lookup_field (k : string) (fields : list (string * JsValue)) : option JsValue :=
  match fields with
  | [] => None
  | (k', v) :: rest =>
      match lookup_field k rest with
      | Some v' => Some v'
      | None => if String.eqb k k' then Some v else None
      end
  end.

(** [v?.k] for the two property names the client reads, [error] and
    [message]: a missing property, and any property of [null], [undefined]
    or of a primitive or array, is [undefined]. *)
Definition get_prop (v : JsValue) (k : string) : JsValue :=
  match v with
  | JObj fields => match lookup_field k fields with Some x => x | None => JUndefined end
  | JError m => if String.eqb k "message" then JStr m else JUndefined
  | _ => JUndefined
  end.

Fixpoint join (sep : string) (parts : list string) : string :=
  match parts with
  | [] => ""
  | [p] => p
  | p :: rest => p ++ sep ++ join sep rest
  end.

(** ToString, as a template literal applies it.  [None] is the TypeError
    raised for an object that carries an own [toString] field: a parsed
    JSON value holds no function, so neither that field nor [valueOf] can
    produce a primitive.  Array elements [null] and [undefined] print as
    the empty string. *)
Fixpoint toString (v : JsValue) : option string :=
  match v with
  | JUndefined => Some "undefined"
  | JNull => Some "null"
  | JBool true => Some "true"
  | JBool false => Some "false"
  | JNumber n => Some (number_toString n)
  | JStr s => Some s
  | JArr items =>
      let fix elements (l : list JsValue) : option (list string) :=
        match l with
        | [] => Some []
        | x :: rest =>
            let sx := match x with
                      | JUndefined | JNull => Some ""
                      | _ => toString x
                      end in
            match sx, elements rest with
            | Some a, Some b => Some (a :: b)
            | _, _ => None
            end
        end in
      match elements items with
      | Some parts => Some (join "," parts)
      | None => None
      end
  | JObj fields =>
      match lookup_field "toString" fields with
      | Some _ => None
      | None => Some "[object Object]"
      end
  | JError m => Some ("Error: " ++ m)
  end.

(** [Object.is old fresh] where [fresh] has just been produced by
    [JSON.parse] (or thrown): an object or array is a new reference, equal
    to no value held before; primitives compare by value. *)
Definition same_value (old fresh : JsValue) : bool :=
  match old, fresh with
  | JUndefined, JUndefined => true
  | JNull, JNull => true
  | JBool a, JBool b => Bool.eqb a b
  | JNumber a, JNumber b => number_is a b
  | JStr a, JStr b => String.eqb a b
  | _, _ => false
  end.

(** [s === v] for a string [s]. *)
Definition strict_eq_string (s : string) (v : JsValue) : bool :=
  match v with
  | JStr t => String.eqb s t
  | _ => false
  end.

End Values.

(** *** String primitives *)

(** WhiteSpace and LineTerminator code units below 256: TAB, LF, VT, FF,
    CR, SP and NBSP. *)
Definition is_ws (c : ascii) : bool :=
  let n := nat_of_ascii c in
  ((n =? 9) || (n =? 10) || (n =? 11) || (n =? 12) || (n =? 13) || (n =? 32) || (n =? 160))%nat.

Fixpoint all_ws (s : string) : bool :=
  match s with
  | EmptyString => true
  | String c r => is_ws c && all_ws r
  end.

Fixpoint trimStart (s : string) : string :=
  match s with
  | EmptyString => EmptyString
  | String c r => if is_ws c then trimStart r else s
  end.

Fixpoint trimEnd (s : string) : string :=
  match s with
  | EmptyString => EmptyString
  | String c r =>
      match trimEnd r with
      | EmptyString => if is_ws c then EmptyString else String c EmptyString
      | r' => String c r'
      end
  end.

(** [s.trim()]. *)
Definition trim (s : string) : string := trimEnd (trimStart s).

(** [s.substring(start, stop)]: both indices are clamped to the length
    and swapped when out of order. *)
Definition substring (s : string) (start stop : nat) : string :=
  String.substring (Nat.min start stop) (Nat.max start stop - Nat.min start stop) s.

(** [s.split(c)[0]]: the part before the first [c]. *)
Fixpoint split_first (c : ascii) (s : string) : string :=
  match s with
  | EmptyString => EmptyString
  | String d r => if Ascii.eqb d c then EmptyString else String d (split_first c r)
  end.

(** [s.split(c).pop()]: the part after the last [c]. *)
Fixpoint split_last (c : ascii) (s : string) : string :=
  match s with
  | EmptyString => EmptyString
  | String d r =>
      if existsb (Ascii.eqb c) (list_ascii_of_string r) then split_last c r
      else if Ascii.eqb d c then r else s
  end.

(** A number in a template literal, for the non-negative integers the
    client prints (a response status). *)
Definition decimal (n : N) : string := NilEmpty.string_of_uint (N.to_uint n).

(** [sub] occurs in [s]. *)
Definition contains (sub s : string) : Prop := exists a b, s = a ++ sub ++ b.

(** [p] starts [s]. *)
Definition starts_with (p s : string) : Prop := exists b, s = p ++ b.

(** A string that is empty or starts with a character that is not
    whitespace. *)
Definition head_kept (s : string) : Prop :=
  match s with
  | EmptyString => True
  | String c _ => is_ws c = false
  end.

End Js.

(* ===================================================================== *)
(** ** [src/lib/secretnotes.ts] *)
(* ===================================================================== *)

Module Api.
Import Js.

(** *** Binary to base64 ([arrayBufferToBase64]) *)

Definition b64_alphabet : string :=
  "ABCDEFGHIJKLMNOPQRSTUVWXYZabcdefghijklmnopqrstuvwxyz0123456789+/".

(** The character of a six-bit value. *)
Definition sextet (n : N) : ascii :=
  match String.get (N.to_nat n) b64_alphabet with
  | Some c => c
  | None => "="%char
  end.

(** Standard base64 (RFC 4648, with padding) of a byte sequence: every
    three bytes give four characters; one or two trailing bytes give two or
    three characters and [=] padding. *)
Fixpoint base64_encode (bytes : list byte) : string :=
  match bytes with
  | [] => ""
  | [a] =>
      let x := Byte.to_N a in
      String (sextet (x / 4)) (String (sextet ((x mod 4) * 16)) "==")
  | [a; b] =>
      let x := Byte.to_N a in
      let y := Byte.to_N b in
      String (sextet (x / 4))
        (String (sextet ((x mod 4) * 16 + y / 16))
           (String (sextet ((y mod 16) * 4)) "="))
  | a :: b :: c :: rest =>
      let x := Byte.to_N a in
      let y := Byte.to_N b in
      let z := Byte.to_N c in
      String (sextet (x / 4))
        (String (sextet ((x mod 4) * 16 + y / 16))
           (String (sextet ((y mod 16) * 4 + z / 64))
              (String (sextet (z mod 64)) (base64_encode rest))))
  end%N.

(** [btoa]: the platform's encoder, the base64 of the code units of a
    binary string (every code unit of the model is below 256, so it never
    throws). *)
Definition btoa (binary : string) : string :=
  base64_encode (map byte_of_ascii (list_ascii_of_string binary)).

(** [String.fromCharCode.apply(null, codes)]. *)
Definition fromCharCode (codes : list byte) : string :=
  string_of_list_ascii (map ascii_of_byte codes).

(** [bytes.subarray(start, stop)] for [start <= stop]: the view is clamped
    to the array. *)
Definition subarray (bytes : list byte) (start stop : nat) : list byte :=
  firstn (stop - start) (skipn start bytes).

(** [const chunk = 0x8000]. *)
Definition chunk : nat := N.to_nat 0x8000.

(** The loop [for (let i = 0; i < bytes.length; i += chunk) binary +=
    String.fromCharCode.apply(null, Array.from(bytes.subarray(i, i +
    chunk)))] from index [i], with the string accumulated so far and the
    argument lists [String.fromCharCode.apply] has been called with so
    far, in order: each turn makes one call, with the bytes of the view. *)
Equations? chunk_loop (bytes : list byte) (i : nat) (binary : string)
    (calls : list (list byte)) : string * list (list byte)
  by wf (length bytes - i) lt :=
  chunk_loop bytes i binary calls with lt_dec i (length bytes) := {
    | left _ => chunk_loop bytes (i + chunk)
                  (binary ++ fromCharCode (subarray bytes i (i + chunk)))
                  (calls ++ [subarray bytes i (i + chunk)]);
    | right _ => (binary, calls) }.
Proof. unfold chunk. lia. Qed.

Definition arrayBufferToBase64 (buffer : list byte) : string :=
  let bytes := buffer in
  let binary := fst (chunk_loop bytes 0 "" []) in
  btoa binary.

(** *** Requests and responses *)

Inductive Method : Type := GET | POST | PUT | PATCH | DELETE.

Section Client.
Context {num : JsNumber}.

(** A request body: [JSON.stringify(v)], or a [FormData] with one file
    field (the blob's bytes and type, and the file name). *)
Inductive Body : Type :=
| BodyJson (v : JsValue)
| BodyForm (field : string) (bytes : list byte) (blobType : string) (fileName : string).

Record Request : Type := {
  method : Method;
  url : string;
  headers : list (string * string);
  body : option Body
}.

(** A response: status line, the [content-type] header
    ([headers.get('content-type')]), and what each way of reading the body
    gives ([inl]: the read rejects with that value). *)
Record Response : Type := {
  status : N;
  statusText : string;
  content_type : option string;
  text : JsValue + string;
  arrayBuffer : JsValue + list byte;
  blob : JsValue + (list byte * string)
}.

(** The platform under the client: the network behind [fetch] with its
    own state, [JSON.parse] ([None]: it throws), [encodeURIComponent]
    ([inl]: it throws) and the configured base URL
    ([process.env.EXPO_PUBLIC_API_BASE_URL], which may be undefined). *)
Class Platform : Type := {
  World : Type;
  fetch : Request -> World -> (JsValue + Response) * World;
  JSON_parse : string -> option JsValue;
  encodeURIComponent : string -> JsValue + string;
  BASE_URL : option string
}.

Context {P : Platform}.

(** *** The monad of the client: the network state and the requests
    issued so far are threaded, a thrown value ends the computation. *)

Record St : Type := { world : World; log : list Request }.

Definition M (A : Type) : Type := St -> (JsValue + A) * St.

Definition ret {A} (a : A) : M A := fun s => (inr a, s).

Definition throw {A} (e : JsValue) : M A := fun s => (inl e, s).

Definition bind {A B} (c : M A) (k : A -> M B) : M B :=
  fun s => match c s with
           | (inr a, s') => k a s'
           | (inl e, s') => (inl e, s')
           end.

(** [try { c } catch (e) { handler e }]. *)
Definition try_catch {A} (c : M A) (handler : JsValue -> M A) : M A :=
  fun s => match c s with
           | (inr a, s') => (inr a, s')
           | (inl e, s') => handler e s'
           end.

(** A step that can throw and touches no state. *)
Definition lift {A} (r : JsValue + A) : M A :=
  match r with
  | inr a => ret a
  | inl e => throw e
  end.

(** [await fetch(...)]: the request is recorded, the network answers. *)
Definition do_fetch (req : Request) : M Response :=
  fun s => let (r, w) := fetch req (world s) in
           (r, {| world := w; log := log s ++ [req] |}).

Local Notation "x <- c ;; k" := (bind c (fun x => k))
  (at level 61, c at next level, right associativity).

(** *** [constants/api]: the endpoints *)

Definition base_url : string :=
  match BASE_URL with Some b => b | None => "undefined" end.

Definition endpoints_note (phrase : string) : JsValue + string :=
  match encodeURIComponent phrase with
  | inr e => inr (base_url ++ "/api/secretnotes/notes/" ++ e)
  | inl x => inl x
  end.

Definition endpoints_noteImage (phrase : string) : JsValue + string :=
  match encodeURIComponent phrase with
  | inr e => inr (base_url ++ "/api/secretnotes/notes/" ++ e ++ "/image")
  | inl x => inl x
  end.

(** *** The client

    The calls to [console] leave no trace in what an operation returns or
    sends and are left out. *)

(** [(p ?? '').trim()]: the phrase is a string, so [??] keeps it. *)
Definition normalizePhrase (p : string) : string := trim p.

Definition DEFAULT_INIT_MESSAGE : string := "Welcome to your new secure note!".

(** [res.ok]: the status is in the range 200-299. *)
Definition ok (res : Response) : bool :=
  ((200 <=? status res) && (status res <=? 299))%N.

(** [`${res.status} ${res.statusText}`]. *)
Definition status_line (res : Response) : string :=
  decimal (status res) ++ " " ++ statusText res.

(** [handleJson]: the body is read once as text (a failed read leaves the
    empty string); a thrown [Error] is [inl (JError msg)]. *)
Definition handleJson (res : Response) : JsValue + JsValue :=
  let text := match text res with inr t => t | inl _ => "" end in
  if negb (ok res) then
    let msg := status_line res in
    let msg :=
      if nonempty text then
        let snippet := msg ++ " - " ++ substring text 0 200 in
        match JSON_parse text with
        | Some data =>
            if truthy (get_prop data "error") then
              match toString (get_prop data "error") with
              | Some detail => status_line res ++ ": " ++ detail
              | None => snippet
              end
            else if truthy (get_prop data "message") then
              match toString (get_prop data "message") with
              | Some detail => status_line res ++ ": " ++ detail
              | None => snippet
              end
            else msg
        | None => snippet
        end
      else msg in
    inl (JError msg)
  else if negb (nonempty text) then inr (JObj [])
  else
    match JSON_parse text with
    | Some data => inr data
    | None => inr (JObj [])
    end.

Definition accept_json : string * string := ("Accept", "application/json").
Definition content_json : string * string := ("Content-Type", "application/json").

(** [JSON.stringify({ message })]. *)
Definition message_body (message : string) : Body :=
  BodyJson (JObj [("message", JStr message)]).

Definition getNote (phrase : string) : M JsValue :=
  let key := normalizePhrase phrase in
  url <- lift (endpoints_note key) ;;
  try_catch
    (res <- do_fetch {| method := GET; url := url; headers := [accept_json]; body := None |} ;;
     data <- lift (handleJson res) ;;
     ret data)
    (fun error => throw error).

Definition createNote (phrase message : string) : M JsValue :=
  let key := normalizePhrase phrase in
  url <- lift (endpoints_note key) ;;
  try_catch
    (res <- do_fetch {| method := POST; url := url;
                        headers := [content_json; accept_json];
                        body := Some (message_body message) |} ;;
     data <- lift (handleJson res) ;;
     ret data)
    (fun error => throw error).

Definition saveNote (phrase message : string) : M JsValue :=
  let key := normalizePhrase phrase in
  url <- lift (endpoints_note key) ;;
  try_catch
    (res <- do_fetch {| method := PUT; url := url;
                        headers := [content_json; accept_json];
                        body := Some (message_body message) |} ;;
     data <- lift (handleJson res) ;;
     ret data)
    (fun error => throw error).

Definition updateNote (phrase message : string) : M JsValue :=
  let key := normalizePhrase phrase in
  url <- lift (endpoints_note key) ;;
  try_catch
    (res <- do_fetch {| method := PATCH; url := url;
                        headers := [content_json; accept_json];
                        body := Some (message_body message) |} ;;
     data <- lift (handleJson res) ;;
     ret data)
    (fun error => throw error).

Definition getOrCreateNote (phrase : string) : M JsValue :=
  let key := normalizePhrase phrase in
  try_catch
    (existing <- getNote key ;;
     ret existing)
    (fun e =>
       createdOrUpdated <-
         try_catch (saveNote key DEFAULT_INIT_MESSAGE)
           (fun patchErr =>
              try_catch (createNote key DEFAULT_INIT_MESSAGE)
                (fun postErr => throw (js_or postErr (js_or patchErr e)))) ;;
       if truthy createdOrUpdated then ret createdOrUpdated
       else getNote key).

Definition deleteImage (phrase : string) : M JsValue :=
  let key := normalizePhrase phrase in
  url <- lift (endpoints_noteImage key) ;;
  res <- do_fetch {| method := DELETE; url := url; headers := [accept_json]; body := None |} ;;
  data <- lift (handleJson res) ;;
  ret data.

(** [headers.get('content-type') || 'application/octet-stream']. *)
Definition contentType_of (res : Response) : string :=
  match content_type res with
  | Some c => if nonempty c then c else "application/octet-stream"
  | None => "application/octet-stream"
  end.

Definition getImage (phrase : string) : M JsValue :=
  let key := normalizePhrase phrase in
  url <- lift (endpoints_noteImage key) ;;
  res <- do_fetch {| method := GET; url := url; headers := []; body := None |} ;;
  if negb (ok res) then throw (JError (status_line res))
  else
    let contentType := contentType_of res in
    buf <- lift (arrayBuffer res) ;;
    let base64 := arrayBufferToBase64 buf in
    ret (JObj [("dataUrl", JStr ("data:" ++ contentType ++ ";base64," ++ base64));
               ("contentType", JStr contentType)]).

(** [const nameGuess = imageUrl.split('?')[0].split('#')[0].split('/').pop()
    || 'image']. *)
Definition nameGuess (imageUrl : string) : string :=
  let last := split_last "/" (split_first "#" (split_first "?" imageUrl)) in
  if nonempty last then last else "image".

(** The [contentType] the source computes from the image response is not
    used afterwards; the blob keeps its own type. *)
Definition uploadImageFromUrl (phrase imageUrl : string) : M JsValue :=
  let key := normalizePhrase phrase in
  imgRes <- do_fetch {| method := GET; url := imageUrl; headers := []; body := None |} ;;
  if negb (ok imgRes) then throw (JError ("Failed to fetch image: " ++ decimal (status imgRes)))
  else
    blob <- lift (blob imgRes) ;;
    let form := BodyForm "image" (fst blob) (snd blob) (nameGuess imageUrl) in
    url <- lift (endpoints_noteImage key) ;;
    res <- do_fetch {| method := POST; url := url; headers := [accept_json]; body := Some form |} ;;
    info <- lift (handleJson res) ;;
    ret info.

(** *** Notions the statements about the client use *)

(** The eight exported operations agree on the phrases [p] and [q]. *)
Definition same_operations (p q : string) : Prop :=
  getNote p = getNote q /\
  getOrCreateNote p = getOrCreateNote q /\
  (forall message, createNote p message = createNote q message) /\
  (forall message, saveNote p message = saveNote q message) /\
  (forall message, updateNote p message = updateNote q message) /\
  getImage p = getImage q /\
  deleteImage p = deleteImage q /\
  (forall imageUrl, uploadImageFromUrl p imageUrl = uploadImageFromUrl q imageUrl).

(** The request of a write: the method, the URL and a JSON body with the
    message. *)
Definition write_request (m : Method) (u message : string) : Request :=
  {| method := m; url := u; headers := [content_json; accept_json];
     body := Some (message_body message) |}.

(** A request sent with method [m] and carrying [message]. *)
Definition sent_as (m : Method) (message : string) (req : Request) : Prop :=
  method req = m /\ body req = Some (message_body message).

(** A write request that carries [message]. *)
Definition writes_message (message : string) (req : Request) : Prop :=
  (method req = PUT \/ method req = POST) /\ body req = Some (message_body message).

(** A read request. *)
Definition reads (req : Request) : Prop :=
  method req = GET /\ body req = None.

(** The first fallback write that succeeds after a failed read: the
    upsert, or the create once the upsert has failed. *)
Definition fallback_write (key : string) (s1 : St) (v : JsValue) (s2 : St) : Prop :=
  saveNote key DEFAULT_INIT_MESSAGE s1 = (inr v, s2) \/
  exists patchErr s',
    saveNote key DEFAULT_INIT_MESSAGE s1 = (inl patchErr, s') /\
    createNote key DEFAULT_INIT_MESSAGE s' = (inr v, s2).

(** The server stores what a write carries and answers with the stored
    note: the answer to a successful PUT or POST of a message has that
    message. *)
Definition echoes_writes : Prop :=
  forall req w res w' message v,
    fetch req w = (inr res, w') ->
    writes_message message req ->
    handleJson res = inr v ->
    get_prop v "message" = JStr message.

End Client.

End Api.

(* ===================================================================== *)
(** ** The autosave effect of [IndexScreen] *)
(* ===================================================================== *)

(** The screen is a React component.  Its state ([phrase], [note],
    [message], [loading]) changes only through the setters; after a render
    in which one of the dependencies [[message, note, valid]] has changed,
    React runs the cleanup returned by the previous run of the effect (when
    it returned one) and then the effect again.  The platform keeps the
    table of armed timers; a [saveNote] call that has been issued and not
    yet answered is in flight.  Time is the platform clock in
    milliseconds.  The phrase is the one the note was loaded under and
    stays as it is. *)
Module Autosave.
Import Js.
Local Open Scope list_scope.
Local Open Scope nat_scope.

Section Screen.
Context {num : JsNumber}.

(** An armed timer: its id, when it fires, and the [phrase] and [message]
    its callback closed over. *)
Record Timer : Type := { tid : nat; due : N; t_phrase : string; t_message : string }.

(** A [saveNote(phrase, message)] call awaiting its response. *)
Record Write : Type := { wid : nat; w_phrase : string; w_message : string }.

Record Screen : Type := {
  phrase : string;
  note : JsValue;                     (* null until a note is loaded *)
  message : string;
  loading : option string;            (* loading.key *)
  saveTimeout : option nat;           (* saveTimeout.current *)
  cleanup : bool;                     (* the last run of the effect returned its cleanup *)
  timers : list Timer;                (* armed, in the order they were set *)
  next_timer : nat;                   (* the id setTimeout returns next *)
  now : N;
  inflight : list Write;
  next_write : nat;
  writes : list (string * string);    (* every saveNote call issued, in order *)
  alerts : list JsValue               (* failures shown by Alert.alert *)
}.

Definition set_note (v : JsValue) (s : Screen) : Screen :=
  {| phrase := phrase s; note := v; message := message s; loading := loading s;
     saveTimeout := saveTimeout s; cleanup := cleanup s; timers := timers s;
     next_timer := next_timer s; now := now s; inflight := inflight s;
     next_write := next_write s; writes := writes s; alerts := alerts s |}.

Definition set_message (m : string) (s : Screen) : Screen :=
  {| phrase := phrase s; note := note s; message := m; loading := loading s;
     saveTimeout := saveTimeout s; cleanup := cleanup s; timers := timers s;
     next_timer := next_timer s; now := now s; inflight := inflight s;
     next_write := next_write s; writes := writes s; alerts := alerts s |}.

Definition set_loading (k : option string) (s : Screen) : Screen :=
  {| phrase := phrase s; note := note s; message := message s; loading := k;
     saveTimeout := saveTimeout s; cleanup := cleanup s; timers := timers s;
     next_timer := next_timer s; now := now s; inflight := inflight s;
     next_write := next_write s; writes := writes s; alerts := alerts s |}.

Definition set_cleanup (b : bool) (s : Screen) : Screen :=
  {| phrase := phrase s; note := note s; message := message s; loading := loading s;
     saveTimeout := saveTimeout s; cleanup := b; timers := timers s;
     next_timer := next_timer s; now := now s; inflight := inflight s;
     next_write := next_write s; writes := writes s; alerts := alerts s |}.

Definition set_timers (ts : list Timer) (s : Screen) : Screen :=
  {| phrase := phrase s; note := note s; message := message s; loading := loading s;
     saveTimeout := saveTimeout s; cleanup := cleanup s; timers := ts;
     next_timer := next_timer s; now := now s; inflight := inflight s;
     next_write := next_write s; writes := writes s; alerts := alerts s |}.

Definition set_now (t : N) (s : Screen) : Screen :=
  {| phrase := phrase s; note := note s; message := message s; loading := loading s;
     saveTimeout := saveTimeout s; cleanup := cleanup s; timers := timers s;
     next_timer := next_timer s; now := t; inflight := inflight s;
     next_write := next_write s; writes := writes s; alerts := alerts s |}.

Definition set_inflight (ws : list Write) (s : Screen) : Screen :=
  {| phrase := phrase s; note := note s; message := message s; loading := loading s;
     saveTimeout := saveTimeout s; cleanup := cleanup s; timers := timers s;
     next_timer := next_timer s; now := now s; inflight := ws;
     next_write := next_write s; writes := writes s; alerts := alerts s |}.

Definition push_alert (e : JsValue) (s : Screen) : Screen :=
  {| phrase := phrase s; note := note s; message := message s; loading := loading s;
     saveTimeout := saveTimeout s; cleanup := cleanup s; timers := timers s;
     next_timer := next_timer s; now := now s; inflight := inflight s;
     next_write := next_write s; writes := writes s; alerts := alerts s ++ [e] |}.

(** [const valid = useMemo(() => phrase.length >= 3, [phrase])]. *)
Definition valid (s : Screen) : bool := 3 <=? String.length (phrase s).

(** [clearTimeout(id)]: an id that is not armed is ignored. *)
Definition clearTimeout (id : nat) (s : Screen) : Screen :=
  set_timers (filter (fun tm => negb (tid tm =? id)) (timers s)) s.

(** [if (saveTimeout.current) clearTimeout(saveTimeout.current)]: the
    reference is falsy when it is null or holds the id 0. *)
Definition clear_saveTimeout (s : Screen) : Screen :=
  match saveTimeout s with
  | Some id => if negb (id =? 0) then clearTimeout id s else s
  | None => s
  end.

(** [saveTimeout.current = setTimeout(callback, delay)], the callback
    closing over the [phrase] and [message] of this render. *)
Definition arm (delay : N) (s : Screen) : Screen :=
  {| phrase := phrase s; note := note s; message := message s; loading := loading s;
     saveTimeout := Some (next_timer s); cleanup := true;
     timers := timers s ++ [{| tid := next_timer s; due := (now s + delay)%N;
                               t_phrase := phrase s; t_message := message s |}];
     next_timer := S (next_timer s); now := now s; inflight := inflight s;
     next_write := next_write s; writes := writes s; alerts := alerts s |}.

(** The body of the effect (lines 63-79); [arm] also records that this
    run returns the cleanup function. *)
Definition effect (s : Screen) : Screen :=
  if negb (truthy (note s)) then set_cleanup false s
  else if negb (valid s) then set_cleanup false s
  else if strict_eq_string (message s) (get_prop (note s) "message") then set_cleanup false s
  else arm 2000 (clear_saveTimeout s).

(** The cleanup the effect returned: [() => { if (saveTimeout.current)
    clearTimeout(saveTimeout.current); }]. *)
Definition run_cleanup (s : Screen) : Screen :=
  if cleanup s then clear_saveTimeout s else s.

(** A render after which a dependency has changed. *)
Definition rerender (s : Screen) : Screen := effect (run_cleanup s).

(** [setMessage(m)] ([onChangeText]): setting the value already held
    changes nothing and runs no effect. *)
Definition setMessage (m : string) (s : Screen) : Screen :=
  if String.eqb m (message s) then s else rerender (set_message m s).

(** [setNote(updated)] with a value just received. *)
Definition setNote (updated : JsValue) (s : Screen) : Screen :=
  if same_value (note s) updated then s else rerender (set_note updated s).

(** The timer callback: [withLoad('autosave', async () => { const updated
    = await saveNote(phrase, message); setNote(updated); })] up to its
    [await]: the key is shown as loading and the write is issued. *)
Definition fire (tm : Timer) (s : Screen) : Screen :=
  {| phrase := phrase s; note := note s; message := message s;
     loading := Some "autosave";
     saveTimeout := saveTimeout s; cleanup := cleanup s; timers := timers s;
     next_timer := next_timer s; now := now s;
     inflight := inflight s ++ [{| wid := next_write s; w_phrase := t_phrase tm;
                                   w_message := t_message tm |}];
     next_write := S (next_write s);
     writes := writes s ++ [(t_phrase tm, t_message tm)];
     alerts := alerts s |}.

Definition is_due (t : N) (tm : Timer) : bool := (due tm <=? t)%N.

(** The clock reaches [t]: every timer due by then fires, in the order the
    timers were set (all delays are equal, so this is the order they fall
    due), and leaves the table. *)
Definition advance (t : N) (s : Screen) : Screen :=
  let ready := filter (is_due t) (timers s) in
  let waiting := filter (fun tm => negb (is_due t tm)) (timers s) in
  set_now (N.max (now s) t) (fold_left (fun acc tm => fire tm acc) ready (set_timers waiting s)).

(** The response to the write [w] arrives: the rest of the callback and of
    [withLoad] runs.  A response to a write that is not in flight is
    ignored. *)
Definition resolve (w : nat) (result : JsValue + JsValue) (s : Screen) : Screen :=
  if existsb (fun x => wid x =? w) (inflight s) then
    let s1 := set_inflight (filter (fun x => negb (wid x =? w)) (inflight s)) s in
    match result with
    | inr updated => set_loading None (setNote updated s1)
    | inl e => set_loading None (push_alert e s1)
    end
  else s.

Inductive Event : Type :=
| Edit (m : string)
| Resolve (w : nat) (result : JsValue + JsValue).

(** An event at time [t]: the timers due by [t] have fired before it. *)
Definition step (s : Screen) (te : N * Event) : Screen :=
  let s1 := advance (fst te) s in
  match snd te with
  | Edit m => setMessage m s1
  | Resolve w r => resolve w r s1
  end.

Definition run (events : list (N * Event)) (s : Screen) : Screen :=
  fold_left step events s.

(** The screen mounted at time [t0] with the phrase [p] typed, holding the
    note [n] and showing the message [m]: nothing is loading, no timer is
    armed, nothing has been written.  Timer ids start at 1. *)
Definition holding (p : string) (n : JsValue) (m : string) (t0 : N) : Screen :=
  {| phrase := p; note := n; message := m;
     loading := None; saveTimeout := None; cleanup := false; timers := [];
     next_timer := 1; now := t0; inflight := []; next_write := 0; writes := [];
     alerts := [] |}.

(** [n.message ?? ''], the value [onLoad] passes to [setMessage], when it
    is a string: the message of the note, or the empty string when the
    note has none (the field is missing or null).  [None] otherwise:
    reading the message of [null] or [undefined] throws and [onLoad] stops
    there, and a message that is not a string is stored as it is, a value
    the text of this screen cannot hold. *)
Definition shown (n : JsValue) : option string :=
  match n with
  | JUndefined | JNull => None
  | _ =>
      match get_prop n "message" with
      | JStr m => Some m
      | JUndefined | JNull => Some ""
      | _ => None
      end
  end.

(** The state [onLoad] stores at time [t0]: [setNote(n)] and
    [setMessage(n.message ?? '')], where that message is a string. *)
Definition stored (p : string) (n : JsValue) (t0 : N) : option Screen :=
  option_map (fun m => holding p n m t0) (shown n).

(** The screen once the note is loaded: the effect has run on the stored
    state. *)
Definition loaded (p : string) (n : JsValue) (t0 : N) : option Screen :=
  option_map effect (stored p n t0).

(** The timer [tm] is the one armed timer, and it is the one the effect
    last set. *)
Definition pending (s : Screen) (tm : Timer) : Prop :=
  timers s = [tm] /\ saveTimeout s = Some (tid tm) /\ tid tm <> 0 /\
  tid tm < next_timer s /\ cleanup s = true /\
  t_message tm = message s /\ t_phrase tm = phrase s /\
  truthy (note s) = true /\ valid s = true /\
  strict_eq_string (message s) (get_prop (note s) "message") = false.

(** What every step keeps: timer ids are positive, the writes in flight
    have distinct ids already given out, and at most one timer is armed, the one [saveTimeout] refers to, carrying the current
    message, which differs from the confirmed one. *)
Definition Inv (s : Screen) : Prop :=
  0 < next_timer s /\
  Forall (fun w => wid w < next_write s) (inflight s) /\
  (timers s = [] \/ exists tm, pending s tm).

(** The effect returns before it touches the timer: no note, a phrase that
    is too short, or a message equal to the confirmed one. *)
Definition returns_early (s : Screen) : bool :=
  negb (truthy (note s)) || negb (valid s) ||
  strict_eq_string (message s) (get_prop (note s) "message").

(** The armed timers are at most the one the effect can still cancel. *)
Definition tracked (s : Screen) : Prop :=
  timers s = [] \/
  exists tm, timers s = [tm] /\ saveTimeout s = Some (tid tm) /\ tid tm <> 0 /\
             cleanup s = true.

(** [s'] has the writes, the note, the phrase, the message and the clock
    of [s]: between the two no write was issued or answered. *)
Definition frame (s s' : Screen) : Prop :=
  writes s' = writes s /\ inflight s' = inflight s /\
  next_write s' = next_write s /\ note s' = note s /\
  phrase s' = phrase s /\ now s' = now s /\ message s' = message s.

(** The timer an edit to [m] at time [t] arms. *)
Definition timer_for (s : Screen) (t : N) (m : string) : Timer :=
  {| tid := next_timer s; due := (t + 2000)%N; t_phrase := phrase s; t_message := m |}.

(** The write a timer of [s] issues when it fires first. *)
Definition write_for (s : Screen) (m : string) : Write :=
  {| wid := next_write s; w_phrase := phrase s; w_message := m |}.

(** What is asked of a response: nothing of a failure, [cond] of the note
    of a success. *)
Definition answer_ok (cond : JsValue -> Prop) (r : JsValue + JsValue) : Prop :=
  match r with
  | inl _ => True
  | inr updated => cond updated
  end.

End Screen.

End Autosave.

(* ===================================================================== *)
(** ** A reference platform for the examples *)
(* ===================================================================== *)

(** The theorems below hold for every platform.  Their examples run on
    this one: integer JSON numbers, a JSON reader for objects, arrays,
    strings with the simple escapes, integers and the three literals, a
    percent-encoder, and a network scripted by a function of the request
    and of the number of requests answered so far. *)
Module Reference.
Import Js Api Autosave.

#[export] Instance IntNumber : JsNumber := {|
  JsNum := Z;
  number_truthy z := negb (Z.eqb z 0);
  number_toString z := (if Z.ltb z 0 then "-" else "") ++ decimal (Z.abs_N z);
  number_is := Z.eqb
|}.

Definition dquote : ascii := "034"%char.
Definition backslash : ascii := "092"%char.

(** [s] between double quotes. *)
Definition quoted (s : string) : string :=
  String dquote (s ++ String dquote "").

Definition json_ws (c : ascii) : bool :=
  let n := nat_of_ascii c in
  ((n =? 32) || (n =? 9) || (n =? 10) || (n =? 13))%nat.

Fixpoint skip_ws (s : string) : string :=
  match s with
  | String c r => if json_ws c then skip_ws r else s
  | EmptyString => s
  end.

(** [s] without its prefix [lit], when it has it. *)
Fixpoint expect (lit s : string) : option string :=
  match lit, s with
  | EmptyString, _ => Some s
  | String a l, String b r => if Ascii.eqb a b then expect l r else None
  | String _ _, EmptyString => None
  end.

Definition is_digit (c : ascii) : bool :=
  let n := nat_of_ascii c in ((48 <=? n) && (n <=? 57))%nat.

Fixpoint read_digits (s : string) (acc : Z) : Z * string :=
  match s with
  | String c r =>
      if is_digit c then read_digits r (acc * 10 + Z.of_nat (nat_of_ascii c - 48))%Z
      else (acc, s)
  | EmptyString => (acc, s)
  end.

Definition unescape (c : ascii) : option ascii :=
  let n := nat_of_ascii c in
  if (n =? 34)%nat then Some dquote
  else if (n =? 92)%nat then Some backslash
  else if (n =? 47)%nat then Some "/"%char
  else if (n =? 98)%nat then Some "008"%char
  else if (n =? 102)%nat then Some "012"%char
  else if (n =? 110)%nat then Some "010"%char
  else if (n =? 114)%nat then Some "013"%char
  else if (n =? 116)%nat then Some "009"%char
  else None.

(** The characters of a string literal after its opening quote, and the
    input after its closing quote. *)
Fixpoint read_string (s : string) : option (string * string) :=
  match s with
  | EmptyString => None
  | String c r =>
      if Ascii.eqb c dquote then Some (EmptyString, r)
      else if Ascii.eqb c backslash then
        match r with
        | String e r' =>
            match unescape e, read_string r' with
            | Some x, Some (body, rest) => Some (String x body, rest)
            | _, _ => None
            end
        | EmptyString => None
        end
      else if (nat_of_ascii c <? 32)%nat then None
      else
        match read_string r with
        | Some (body, rest) => Some (String c body, rest)
        | None => None
        end
  end.

Fixpoint read_value (fuel : nat) (s : string) : option (JsValue * string) :=
  match fuel with
  | 0 => None
  | S fuel' =>
      match skip_ws s with
      | EmptyString => None
      | String c r =>
          if Ascii.eqb c dquote then
            match read_string r with
            | Some (body, rest) => Some (JStr body, rest)
            | None => None
            end
          else if Ascii.eqb c "["%char then
            match skip_ws r with
            | String d r' =>
                if Ascii.eqb d "]"%char then Some (JArr [], r')
                else
                  match read_items fuel' r with
                  | Some (items, rest) => Some (JArr items, rest)
                  | None => None
                  end
            | EmptyString => None
            end
          else if Ascii.eqb c "{"%char then
            match skip_ws r with
            | String d r' =>
                if Ascii.eqb d "}"%char then Some (JObj [], r')
                else
                  match read_members fuel' r with
                  | Some (fields, rest) => Some (JObj fields, rest)
                  | None => None
                  end
            | EmptyString => None
            end
          else if Ascii.eqb c "-"%char then
            match r with
            | String d _ =>
                if is_digit d then
                  let (n, rest) := read_digits r 0%Z in Some (JNumber (- n)%Z, rest)
                else None
            | EmptyString => None
            end
          else if is_digit c then
            match c, r with
            | "0"%char, String d _ =>
                if is_digit d then None else Some (JNumber 0%Z, r)
            | _, _ =>
                let (n, rest) := read_digits (String c r) 0%Z in Some (JNumber n, rest)
            end
          else
            match expect "null" (String c r), expect "true" (String c r),
                  expect "false" (String c r) with
            | Some rest, _, _ => Some (JNull, rest)
            | _, Some rest, _ => Some (JBool true, rest)
            | _, _, Some rest => Some (JBool false, rest)
            | _, _, _ => None
            end
      end
  end
with read_items (fuel : nat) (s : string) : option (list JsValue * string) :=
  match fuel with
  | 0 => None
  | S fuel' =>
      match read_value fuel' s with
      | Some (v, rest) =>
          match skip_ws rest with
          | String c r =>
              if Ascii.eqb c ","%char then
                match read_items fuel' r with
                | Some (items, rest') => Some (v :: items, rest')
                | None => None
                end
              else if Ascii.eqb c "]"%char then Some ([v], r)
              else None
          | EmptyString => None
          end
      | None => None
      end
  end
with read_members (fuel : nat) (s : string) : option (list (string * JsValue) * string) :=
  match fuel with
  | 0 => None
  | S fuel' =>
      match skip_ws s with
      | String q r =>
          if Ascii.eqb q dquote then
            match read_string r with
            | Some (key, rest) =>
                match skip_ws rest with
                | String c r1 =>
                    if Ascii.eqb c ":"%char then
                      match read_value fuel' r1 with
                      | Some (v, rest1) =>
                          match skip_ws rest1 with
                          | String d r2 =>
                              if Ascii.eqb d ","%char then
                                match read_members fuel' r2 with
                                | Some (fields, rest2) => Some ((key, v) :: fields, rest2)
                                | None => None
                                end
                              else if Ascii.eqb d "}"%char then Some ([(key, v)], r2)
                              else None
                          | EmptyString => None
                          end
                      | None => None
                      end
                    else None
                | EmptyString => None
                end
            | None => None
            end
          else None
      | EmptyString => None
      end
  end.

(** The whole text must be one value. *)
Definition parse (s : string) : option JsValue :=
  match read_value (2 * String.length s + 2) s with
  | Some (v, rest) =>
      match skip_ws rest with
      | EmptyString => Some v
      | String _ _ => None
      end
  | None => None
  end.

Definition hex_digit (n : nat) : ascii :=
  match String.get n "0123456789ABCDEF" with
  | Some c => c
  | None => "0"%char
  end.

Definition percent (n : nat) : string :=
  String "%"%char (String (hex_digit (n / 16)) (String (hex_digit (n mod 16)) "")).

Definition unreserved (c : ascii) : bool :=
  let n := nat_of_ascii c in
  ((65 <=? n) && (n <=? 90) || (97 <=? n) && (n <=? 122) || (48 <=? n) && (n <=? 57)
   || existsb (Nat.eqb n) [45; 95; 46; 33; 126; 42; 39; 40; 41])%nat.

(** Percent-encoding of the UTF-8 form of each code unit. *)
Fixpoint percent_encode (s : string) : string :=
  match s with
  | EmptyString => EmptyString
  | String c r =>
      let n := nat_of_ascii c in
      (if unreserved c then String c EmptyString
       else if (n <? 128)%nat then percent n
       else percent (192 + n / 64) ++ percent (128 + n mod 64))
      ++ percent_encode r
  end.

(** A network that answers by [script] and counts what it has answered. *)
Definition scripted (script : Request -> nat -> JsValue + Response) : Platform := {|
  World := nat;
  fetch req n := (script req n, S n);
  JSON_parse := parse;
  encodeURIComponent s := inr (percent_encode s);
  BASE_URL := Some "https://notes.example"
|}.

(** A JSON response with the given status line and body text. *)
Definition json_response (code : N) (reason body : string) : Response := {|
  status := code;
  statusText := reason;
  content_type := Some "application/json";
  text := inr body;
  arrayBuffer := inr (map byte_of_ascii (list_ascii_of_string body));
  blob := inr (map byte_of_ascii (list_ascii_of_string body), "application/json")
|}.

(** The JSON text of a note with the given message. *)
Definition note_text (message : string) : string :=
  "{" ++ quoted "id" ++ ":" ++ quoted "n1" ++ "," ++
  quoted "message" ++ ":" ++ quoted message ++ "," ++
  quoted "hasImage" ++ ":false," ++
  quoted "created" ++ ":" ++ quoted "2024-01-01" ++ "," ++
  quoted "updated" ++ ":" ++ quoted "2024-01-01" ++ "}".

(** Nothing requested yet. *)
Definition start (script : Request -> nat -> JsValue + Response) : @St _ (scripted script) :=
  {| world := (O : @World _ (scripted script)); log := [] |}.

(** The body [{"error": detail}]. *)
Definition error_text (detail : string) : string :=
  "{" ++ quoted "error" ++ ":" ++ quoted detail ++ "}".

Definition not_found : Response :=
  json_response 404 "Not Found" (error_text "note not found").

(** Every request fails: the network is down for reads, the server
    rejects the upsert with an HTML page and the create with a JSON
    error. *)
Definition script_failing (req : Request) (n : nat) : JsValue + Response :=
  match method req with
  | GET => inl (JError "Network request failed")
  | PUT => inr (json_response 500 "Internal Server Error" "<html>oops</html>")
  | _ => inr (json_response 409 "Conflict" (error_text "exists"))
  end.

(** The note cannot be read, before or after it is written; the upsert of
    the default message is stored and answered with the note, any other
    write is refused. *)
Definition script_fresh (req : Request) (n : nat) : JsValue + Response :=
  match method req with
  | GET => inr not_found
  | PUT | POST =>
      match body req with
      | Some (BodyJson (JObj [(_, JStr m)])) =>
          if String.eqb m DEFAULT_INIT_MESSAGE
          then inr (json_response 200 "OK" (note_text DEFAULT_INIT_MESSAGE))
          else inr (json_response 400 "Bad Request" (error_text "refused"))
      | _ => inr (json_response 400 "Bad Request" (error_text "refused"))
      end
  | _ => inl (JError "Network request failed")
  end.

(** Reads fail throughout, the upsert is not allowed, the create is
    answered with the note. *)
Definition script_create_only (req : Request) (n : nat) : JsValue + Response :=
  match method req with
  | GET => inr not_found
  | PUT => inr (json_response 405 "Method Not Allowed" "")
  | POST => inr (json_response 201 "Created" (note_text DEFAULT_INIT_MESSAGE))
  | _ => inl (JError "Network request failed")
  end.

(** Reads fail; every write is answered with status [code] and the body
    [answer], whatever was written. *)
Definition script_answering (code : N) (answer : string)
    (req : Request) (n : nat) : JsValue + Response :=
  match method req with
  | GET => inr not_found
  | _ => inr (json_response code "OK" answer)
  end.

(** The note of the reference server for the default message. *)
Definition welcome_note : JsValue :=
  JObj [("id", JStr "n1"); ("message", JStr DEFAULT_INIT_MESSAGE);
        ("hasImage", JBool false); ("created", JStr "2024-01-01");
        ("updated", JStr "2024-01-01")].

(** The note [hello] loaded under the phrase [abc] at time 0. *)
Definition hello : JsValue := JObj [("message", JStr "hello")].
Definition opened : Screen := effect (holding "abc" hello "hello" 0).

(** The same screen 2000 ms after the edit [a]: its write is in flight. *)
Definition saving : Screen := advance 2000 (run [(0%N, Edit "a")] opened).

(** A note with the message [xyz] loaded under the phrase [abc] at time 0. *)
Definition confirmed_xyz : Screen :=
  effect (holding "abc" (JObj [("message", JStr "xyz")]) "xyz" 0).

End Reference.

(* ===================================================================== *)
(** ** The handlers of [IndexScreen] *)
(* ===================================================================== *)

(** The four button handlers of the screen and [withLoad], run from the
    press to the end with the values of the render they close over.  The
    state of the component and the state of the client are threaded; the
    timers of the autosave effect are the matter of [Autosave]. *)
Module Handlers.
Import Js Api.

(** The TypeErrors the engine raises: for reading a property of [null] or
    [undefined], and for converting to a string an object that has no
    primitive value. *)
Class Engine {num : JsNumber} : Type := {
  null_access : JsValue -> string -> JsValue;
  not_primitive : JsValue
}.

Section Screen.
Context {num : JsNumber} {P : Platform} {E : Engine}.

(** The state of the component; [message] and [imageDataUrl] hold whatever
    the setters were given. *)
Record View : Type := {
  phrase : string;
  note : JsValue;
  message : JsValue;
  loading : option string;
  imageDataUrl : JsValue;
  imageUrlInput : string;
  alerts : list (string * JsValue)      (* Alert.alert(title, message) *)
}.

Record Ui : Type := { view : View; net : St }.

Definition H (A : Type) : Type := Ui -> (JsValue + A) * Ui.

Definition unit_h {A} (a : A) : H A := fun u => (inr a, u).

Definition raise {A} (e : JsValue) : H A := fun u => (inl e, u).

Definition then_h {A B} (c : H A) (k : A -> H B) : H B :=
  fun u => match c u with
           | (inr a, u') => k a u'
           | (inl e, u') => (inl e, u')
           end.

Local Notation "x <- c ;; k" := (then_h c (fun x => k))
  (at level 61, c at next level, right associativity).
Local Notation "c ;; k" := (then_h c (fun _ => k))
  (at level 61, right associativity).

(** A step that can throw and touches no state. *)
Definition step_of {A} (r : JsValue + A) : H A :=
  match r with
  | inr a => unit_h a
  | inl e => raise e
  end.

(** [await] of an operation of the client. *)
Definition api {A} (c : M A) : H A :=
  fun u => let (r, st) := c (net u) in (r, {| view := view u; net := st |}).

(** The values of the current render. *)
Definition render : H View := fun u => (inr (view u), u).

Definition on_view (f : View -> View) (u : Ui) : Ui :=
  {| view := f (view u); net := net u |}.

Definition update (f : View -> View) : H unit := fun u => (inr tt, on_view f u).

Definition setNote (n : JsValue) (v : View) : View :=
  {| phrase := phrase v; note := n; message := message v; loading := loading v;
     imageDataUrl := imageDataUrl v; imageUrlInput := imageUrlInput v;
     alerts := alerts v |}.

Definition setMessage (m : JsValue) (v : View) : View :=
  {| phrase := phrase v; note := note v; message := m; loading := loading v;
     imageDataUrl := imageDataUrl v; imageUrlInput := imageUrlInput v;
     alerts := alerts v |}.

Definition setLoading (k : option string) (v : View) : View :=
  {| phrase := phrase v; note := note v; message := message v; loading := k;
     imageDataUrl := imageDataUrl v; imageUrlInput := imageUrlInput v;
     alerts := alerts v |}.

Definition setImageDataUrl (d : JsValue) (v : View) : View :=
  {| phrase := phrase v; note := note v; message := message v; loading := loading v;
     imageDataUrl := d; imageUrlInput := imageUrlInput v;
     alerts := alerts v |}.

(** [Alert.alert(title, text)]. *)
Definition alert (title : string) (text : JsValue) (v : View) : View :=
  {| phrase := phrase v; note := note v; message := message v; loading := loading v;
     imageDataUrl := imageDataUrl v; imageUrlInput := imageUrlInput v;
     alerts := (alerts v ++ [(title, text)])%list |}.

(** [const valid = useMemo(() => phrase.length >= 3, [phrase])]. *)
Definition valid (v : View) : bool := (3 <=? String.length (phrase v))%nat.

Definition nullish (v : JsValue) : bool :=
  match v with
  | JUndefined | JNull => true
  | _ => false
  end.

(** [a ?? b]. *)
Definition nullish_or (a b : JsValue) : JsValue := if nullish a then b else a.

(** [v.k]: reading a property of [null] or [undefined] throws. *)
Definition property (v : JsValue) (k : string) : JsValue + JsValue :=
  if nullish v then inl (null_access v k) else inr (get_prop v k).

(** [String(v)], and a substitution of a template literal. *)
Definition to_text (v : JsValue) : JsValue + string :=
  match toString v with
  | Some s => inr s
  | None => inl not_primitive
  end.

(** [e?.message ?? String(e)]. *)
Definition error_text (e : JsValue) : JsValue + JsValue :=
  if nullish (get_prop e "message") then
    match to_text e with
    | inr s => inr (JStr s)
    | inl thrown => inl thrown
    end
  else inr (get_prop e "message").

(** [withLoad(key, fn)]: the key is shown as loading while [fn] runs; a
    failure of [fn] is alerted and not thrown again (unless building the
    text of the alert throws); in every case the key is reset at the
    end. *)
Definition withLoad (key : string) (fn : H unit) : H unit :=
  fun u =>
    let (r, u2) :=
      match fn (on_view (setLoading (Some key)) u) with
      | (inr a, u1) => (inr a, u1)
      | (inl e, u1) =>
          match error_text e with
          | inr text => (inr tt, on_view (alert "Error" text) u1)
          | inl thrown => (inl thrown, u1)
          end
      end in
    (r, on_view (setLoading None) u2).

Definition invalid_phrase : H unit :=
  update (alert "Invalid" (JStr "Passphrase must be at least 3 characters.")).

Definition onLoad : H unit :=
  withLoad "load"
    (v <- render ;;
     if negb (valid v) then invalid_phrase
     else
       n <- api (getOrCreateNote (phrase v)) ;;
       update (setNote n) ;;
       m <- step_of (property n "message") ;;
       update (setMessage (nullish_or m (JStr ""))) ;;
       update (setImageDataUrl JNull)).

Definition onGetImage : H unit :=
  withLoad "getImage"
    (v <- render ;;
     if negb (valid v) then invalid_phrase
     else
       res <- api (getImage (phrase v)) ;;
       dataUrl <- step_of (property res "dataUrl") ;;
       update (setImageDataUrl dataUrl)).

Definition onUploadImage : H unit :=
  withLoad "uploadImage"
    (v <- render ;;
     if negb (valid v) then invalid_phrase
     else if negb (nonempty (imageUrlInput v)) then
       update (alert "Missing" (JStr "Enter a direct image URL to upload."))
     else
       info <- api (uploadImageFromUrl (phrase v) (imageUrlInput v)) ;;
       fileName <- step_of (property info "fileName") ;;
       name <- step_of (to_text fileName) ;;
       contentType <- step_of (property info "contentType") ;;
       type <- step_of (to_text contentType) ;;
       update (alert "Uploaded" (JStr (name ++ " (" ++ type ++ ")"))) ;;
       update (setImageDataUrl JNull) ;;
       n <- api (getNote (phrase v)) ;;
       update (setNote n)).

Definition onDeleteImage : H unit :=
  withLoad "deleteImage"
    (v <- render ;;
     if negb (valid v) then invalid_phrase
     else
       api (deleteImage (phrase v)) ;;
       update (setImageDataUrl JNull) ;;
       n <- api (getNote (phrase v)) ;;
       update (setNote n)).

(** The screen as it is mounted, with the given text in the two inputs. *)
Definition mounted (p imageUrl : string) (st : St) : Ui :=
  {| view := {| phrase := p; note := JNull; message := JStr ""; loading := None;
                imageDataUrl := JNull; imageUrlInput := imageUrl; alerts := [] |};
     net := st |}.

(** What a handler leaves alone when it gives up: the note, the message
    and the image shown. *)
Definition same_content (v v' : View) : Prop :=
  note v' = note v /\ message v' = message v /\ imageDataUrl v' = imageDataUrl v.

(** The handler ended normally from [u] having only shown one more alert:
    no request was sent, the content is as before, nothing is loading. *)
Definition only_alerts (title : string) (text : JsValue) (u : Ui)
    (r : (JsValue + unit) * Ui) : Prop :=
  fst r = inr tt /\ net (snd r) = net u /\
  same_content (view u) (view (snd r)) /\
  alerts (view (snd r)) = (alerts (view u) ++ [(title, text)])%list /\
  loading (view (snd r)) = None.

(** The view after a handler that ended normally: the given note, message
    and image, the alerts shown, nothing loading. *)
Definition settled (v : View) (n m d : JsValue) (shown : list (string * JsValue)) : View :=
  {| phrase := phrase v; note := n; message := m; loading := None;
     imageDataUrl := d; imageUrlInput := imageUrlInput v;
     alerts := (alerts v ++ shown)%list |}.

End Screen.

End Handlers.

(* ===================================================================== *)
(** ** Notions the further statements use *)
(* ===================================================================== *)

Module Notions.
Import Js Api.

(** The value of a base64 character: its index in the alphabet. *)
Fixpoint index_of (c : ascii) (alphabet : string) : N :=
  match alphabet with
  | EmptyString => 0
  | String d rest => if Ascii.eqb c d then 0 else N.succ (index_of c rest)
  end.

Definition sextet_value (c : ascii) : N := index_of c b64_alphabet.

Definition byte_of (n : N) : byte :=
  match Byte.of_N n with
  | Some b => b
  | None => x00
  end.

(** Reads back what [base64_encode] wrote: four characters give three
    bytes, fewer where the padding stands. *)
Fixpoint base64_decode (s : string) : list byte :=
  match s with
  | String a (String b (String c (String d rest))) =>
      let p := sextet_value a in
      let q := sextet_value b in
      let r := sextet_value c in
      let t := sextet_value d in
      if Ascii.eqb c "="%char then [byte_of (p * 4 + q / 16)]
      else if Ascii.eqb d "="%char then
        [byte_of (p * 4 + q / 16); byte_of ((q mod 16) * 16 + r / 4)]
      else
        byte_of (p * 4 + q / 16) :: byte_of ((q mod 16) * 16 + r / 4)
          :: byte_of ((r mod 4) * 64 + t) :: base64_decode rest
  | _ => []
  end%N.

(** The character [c] occurs in [s]. *)
Definition occurs (c : ascii) (s : string) : Prop := In c (list_ascii_of_string s).

Section Client.
Context {num : JsNumber} {P : Platform}.

(** One request whose response is read as JSON: the request is logged, a
    rejection of the network is thrown as it is, a response goes through
    [handleJson]. *)
Definition json_call (req : Request) : M JsValue :=
  fun s => let (r, w) := fetch req (world s) in
           (match r with
            | inl e => inl e
            | inr res => handleJson res
            end,
            {| world := w; log := (log s ++ [req])%list |}).

(** The request of each operation on a note, given the URL. *)
Definition read_request (u : string) : Request :=
  {| method := GET; url := u; headers := [accept_json]; body := None |}.

Definition delete_request (u : string) : Request :=
  {| method := DELETE; url := u; headers := [accept_json]; body := None |}.

Definition image_request (u : string) : Request :=
  {| method := GET; url := u; headers := []; body := None |}.

Definition upload_request (u : string) (bytes : list byte) (type name : string) : Request :=
  {| method := POST; url := u; headers := [accept_json];
     body := Some (BodyForm "image" bytes type name) |}.

(** The call an operation makes once its URL is built; nothing is sent
    when building the URL throws. *)
Definition call_at (address : JsValue + string) (request : string -> Request) : M JsValue :=
  match address with
  | inr u => json_call (request u)
  | inl e => throw e
  end.

(** The object [getImage] returns for a content type and the bytes. *)
Definition image_result (contentType : string) (bytes : list byte) : JsValue :=
  JObj [("dataUrl", JStr ("data:" ++ contentType ++ ";base64," ++ base64_encode bytes));
        ("contentType", JStr contentType)].

End Client.

End Notions.

(* ===================================================================== *)
(** ** Scenarios with images *)
(* ===================================================================== *)

Module Scenarios.
Import Js Api Reference Handlers.
Local Open Scope list_scope.

(** What the engine of the reference platform throws. *)
#[export] Instance engine : Engine := {|
  null_access v k :=
    JError ("Cannot read property '" ++ k ++ "' of " ++
            match v with JNull => "null" | _ => "undefined" end);
  not_primitive := JError "Cannot convert object to primitive value"
|}.

(** A 200 response of the given content type with the body [content]. *)
Definition typed_response (type content : string) : Response := {|
  status := 200;
  statusText := "OK";
  content_type := Some type;
  text := inr content;
  arrayBuffer := inr (map byte_of_ascii (list_ascii_of_string content));
  blob := inr (map byte_of_ascii (list_ascii_of_string content), type)
|}.

(** The JSON text the server answers an upload with. *)
Definition image_text (fileName contentType : string) : string :=
  "{" ++ quoted "id" ++ ":" ++ quoted "i1" ++ "," ++
  quoted "fileName" ++ ":" ++ quoted fileName ++ "," ++
  quoted "contentType" ++ ":" ++ quoted contentType ++ "," ++
  quoted "created" ++ ":" ++ quoted "2024-01-02" ++ "}".

(** A picture on another host, and the image URL of the note of the
    phrase [open sesame]. *)
Definition picture : string := "https://host/path/pic.gif?x=1#frag".
Definition sesame_image : string :=
  "https://notes.example/api/secretnotes/notes/open%20sesame/image".

(** A server that holds the note [hello] with an image for every phrase:
    the picture is served by its host, the image of a note as a PNG, a
    delete is confirmed, an upload is answered with the stored image's
    description, and every other request with the note. *)
Definition script_stocked (req : Request) (n : nat) : JsValue + Response :=
  match method req with
  | GET =>
      if String.eqb (url req) picture then inr (typed_response "image/gif" "GIF89a")
      else if String.eqb (url req) sesame_image then inr (typed_response "image/png" "PNG!")
      else inr (json_response 200 "OK" (note_text "hello"))
  | DELETE =>
      inr (json_response 200 "OK" ("{" ++ quoted "message" ++ ":" ++ quoted "image deleted" ++ "}"))
  | POST =>
      match body req with
      | Some (BodyForm _ _ type name) => inr (json_response 201 "Created" (image_text name type))
      | _ => inr (json_response 200 "OK" (note_text "hello"))
      end
  | _ => inr (json_response 200 "OK" (note_text "hello"))
  end.

(** The state after [n] answers, with the requests sent so far. *)
Definition reached (script : Request -> nat -> JsValue + Response) (n : nat)
    (sent : list Request) : @St _ (scripted script) :=
  {| world := (n : @World _ (scripted script)); log := sent |}.

(** The note the stocked server answers with. *)
Definition hello_note : JsValue :=
  JObj [("id", JStr "n1"); ("message", JStr "hello");
        ("hasImage", JBool false); ("created", JStr "2024-01-01");
        ("updated", JStr "2024-01-01")].

(** The screen with the phrase [open sesame] and the picture's URL typed
    in, before anything is requested. *)
Definition typed_in (script : Request -> nat -> JsValue + Response) : @Ui _ (scripted script) :=
  mounted "open sesame" picture (start script).

End Scenarios.

(* ===================================================================== *)
(** ** Facts about the string primitives *)
(* ===================================================================== *)

Module JsFacts.
Import Js.

Lemma append_empty_r (s : string) : s ++ "" = s.
Proof. induction s as [|c s IH]; simpl; [reflexivity | now rewrite IH]. Qed.

Lemma append_assoc (a b c : string) : (a ++ b) ++ c = a ++ (b ++ c).
Proof. induction a as [|x a IH]; simpl; [reflexivity | now rewrite IH]. Qed.

Lemma trimEnd_all_ws (r : string) : all_ws r = true -> trimEnd r = "".
Proof.
  induction r as [|c r IH]; simpl; [reflexivity |].
  intros Hws. apply andb_true_iff in Hws as [Hc Hr].
  rewrite (IH Hr), Hc. reflexivity.
Qed.

Lemma trimStart_all_ws (l : string) : all_ws l = true -> trimStart l = "".
Proof.
  induction l as [|c l IH]; simpl; [reflexivity |].
  intros Hws. apply andb_true_iff in Hws as [Hc Hl].
  rewrite Hc. auto.
Qed.

Lemma trimStart_ws_app (l s : string) : all_ws l = true -> trimStart (l ++ s) = trimStart s.
Proof.
  induction l as [|c l IH]; simpl; [reflexivity |].
  intros Hws. apply andb_true_iff in Hws as [Hc Hl].
  rewrite Hc. auto.
Qed.

Lemma trimEnd_app_ws (s r : string) : all_ws r = true -> trimEnd (s ++ r) = trimEnd s.
Proof.
  intros Hr. induction s as [|c s IH]; simpl.
  - now apply trimEnd_all_ws.
  - rewrite IH. reflexivity.
Qed.

(** Trailing whitespace after [p] does not survive [trim]. *)
Lemma trimStart_app_ws (p r : string) :
  all_ws r = true -> trimEnd (trimStart (p ++ r)) = trimEnd (trimStart p).
Proof.
  intros Hr. induction p as [|c p IH]; simpl.
  - rewrite (trimStart_all_ws r Hr). reflexivity.
  - destruct (is_ws c); [exact IH |].
    change (String c (p ++ r)) with (String c p ++ r).
    now apply trimEnd_app_ws.
Qed.

Lemma trim_surrounding_ws (l p r : string) :
  all_ws l = true -> all_ws r = true -> trim (l ++ p ++ r) = trim p.
Proof.
  intros Hl Hr. unfold trim.
  rewrite (trimStart_ws_app l _ Hl). now apply trimStart_app_ws.
Qed.

Lemma trimStart_head (s : string) : head_kept (trimStart s).
Proof.
  induction s as [|c s IH]; simpl; [exact I |].
  destruct (is_ws c) eqn:Hc; [exact IH | exact Hc].
Qed.

Lemma trimStart_fixed (s : string) : head_kept s -> trimStart s = s.
Proof. destruct s as [|c s]; simpl; [reflexivity | intros ->; reflexivity]. Qed.

Lemma trimEnd_head (s : string) : head_kept s -> head_kept (trimEnd s).
Proof.
  destruct s as [|c s]; simpl; [trivial |].
  intros Hc. destruct (trimEnd s); [rewrite Hc |]; exact Hc.
Qed.

Lemma trimEnd_idempotent (s : string) : trimEnd (trimEnd s) = trimEnd s.
Proof.
  induction s as [|c s IH]; simpl; [reflexivity |].
  destruct (trimEnd s) as [|d t] eqn:Ht.
  - destruct (is_ws c) eqn:Hc; simpl; [reflexivity | now rewrite Hc].
  - change (trimEnd (String c (String d t)))
      with (match trimEnd (String d t) with
            | EmptyString => if is_ws c then EmptyString else String c EmptyString
            | r' => String c r'
            end).
    rewrite IH. reflexivity.
Qed.

Lemma trim_idempotent (s : string) : trim (trim s) = trim s.
Proof.
  unfold trim.
  rewrite (trimStart_fixed (trimEnd (trimStart s))).
  - apply trimEnd_idempotent.
  - apply trimEnd_head, trimStart_head.
Qed.

(** [substring(0, n)] is a prefix of at most [n] characters. *)
Lemma substring_prefix (s : string) (n : nat) :
  String.length (substring s 0 n) <= n /\ starts_with (substring s 0 n) s.
Proof.
  unfold substring. rewrite Nat.min_0_l, Nat.max_0_l, Nat.sub_0_r.
  revert s. induction n as [|n IH]; intros s.
  - destruct s; simpl; (split; [lia | eexists; reflexivity]).
  - destruct s as [|c s]; simpl.
    + split; [lia | exists ""; reflexivity].
    + destruct (IH s) as [Hlen [rest Hrest]]. split; [lia |].
      exists rest. simpl. now rewrite <- Hrest.
Qed.

Lemma starts_with_app (p q : string) : starts_with p (p ++ q).
Proof. now exists q. Qed.

Lemma starts_with_refl (p : string) : starts_with p p.
Proof. exists "". now rewrite append_empty_r. Qed.

Lemma contains_suffix (a d : string) : contains d (a ++ d).
Proof. exists a, "". now rewrite append_empty_r. Qed.

Lemma contains_after (a b d : string) : contains d (a ++ b ++ d).
Proof. rewrite <- append_assoc. apply contains_suffix. Qed.

Lemma contains_empty (s : string) : contains "" s.
Proof. now exists "", s. Qed.

End JsFacts.

(* ===================================================================== *)
(** ** The base64 encoder reads the buffer in chunks *)
(* ===================================================================== *)

Module Base64Facts.
Import Js Api JsFacts.

Lemma fromCharCode_app (a b : list byte) :
  fromCharCode (a ++ b)%list = fromCharCode a ++ fromCharCode b.
Proof.
  unfold fromCharCode. induction a as [|x a IH]; simpl; [reflexivity |].
  now rewrite IH.
Qed.

(** One turn of the loop appends the next [chunk] bytes (fewer at the end
    of the buffer). *)
Lemma subarray_then_rest (bytes : list byte) (i : nat) :
  (subarray bytes i (i + chunk) ++ skipn (i + chunk) bytes)%list = skipn i bytes.
Proof.
  unfold subarray.
  replace (i + chunk - i) with chunk by lia.
  rewrite (Nat.add_comm i chunk), <- skipn_skipn.
  apply firstn_skipn.
Qed.

Lemma subarray_bounded (bytes : list byte) (i : nat) :
  length (subarray bytes i (i + chunk)) <= chunk.
Proof.
  unfold subarray. rewrite length_firstn. lia.
Qed.


(** The loop started at [i] appends the characters of all bytes from [i]
    on. *)
Lemma chunk_loop_appends (bytes : list byte) (i : nat) (binary : string)
    (calls : list (list byte)) :
  fst (chunk_loop bytes i binary calls) = binary ++ fromCharCode (skipn i bytes).
Proof.
  funelim (chunk_loop bytes i binary calls).
  - match goal with IH : fst (chunk_loop _ _ _ _) = _ ++ _ |- _ => rewrite IH end.
    rewrite append_assoc, <- fromCharCode_app, subarray_then_rest.
    reflexivity.
  - rewrite skipn_all2 by lia. unfold fromCharCode. simpl.
    now rewrite append_empty_r.
Qed.



Lemma codes_of_fromCharCode (bytes : list byte) :
  map byte_of_ascii (list_ascii_of_string (fromCharCode bytes)) = bytes.
Proof.
  unfold fromCharCode. rewrite list_ascii_of_string_of_list_ascii, map_map.
  induction bytes as [|b bytes IH]; simpl; [reflexivity |].
  now rewrite byte_of_ascii_of_byte, IH.
Qed.

(** Spot checks of [base64_encode] against the test vectors of RFC 4648. *)
Example base64_rfc4648_vectors :
  map (fun s => btoa s) [""; "f"; "fo"; "foo"; "foob"; "fooba"; "foobar"]
  = [""; "Zg=="; "Zm8="; "Zm9v"; "Zm9vYg=="; "Zm9vYmE="; "Zm9vYmFy"].
Proof. reflexivity. Qed.


End Base64Facts.

(* ===================================================================== *)
(** ** The transport layer and the note resolver *)
(* ===================================================================== *)

Module ApiFacts.
Import Js Api JsFacts.

Section Facts.
Context {num : JsNumber} {P : Platform}.

(** *** [handleJson] *)

Lemma nonempty_true (s : string) : s <> "" -> nonempty s = true.
Proof. destruct s; [congruence | reflexivity]. Qed.

Lemma toString_JStr (d : string) : toString (JStr d) = Some d.
Proof. reflexivity. Qed.

Lemma truthy_JStr (d : string) : truthy (JStr d) = nonempty d.
Proof. reflexivity. Qed.

(** C6.  For a response whose status is outside 200-299, [handleJson]
    throws an [Error] whose message starts with the status in decimal, a
    space and the status text.  When the body parses as JSON: a truthy
    [error], or else a truthy [message], follows that prefix and a colon,
    converted to a string as a template literal does, so the message
    contains it (a string field is contained as it is, the empty string
    trivially); when neither is truthy the message is the prefix alone;
    when the conversion throws, the body is used as if it did not parse.
    When the body does not parse as JSON, the message is the prefix,
    [ - ] and the first 200 characters of the body at most.  When the body
    is empty or could not be read, the message is the prefix alone. *)
Theorem handleJson_failure_message (res : Response) :
  ok res = false ->
  let prefix := decimal (status res) ++ " " ++ statusText res in
  exists msg,
    handleJson res = inl (JError msg) /\
    starts_with prefix msg /\
    (forall body data,
        text res = inr body -> body <> "" -> JSON_parse body = Some data ->
        let error := get_prop data "error" in
        let message := get_prop data "message" in
        let snippet := prefix ++ " - " ++ substring body 0 200 in
        (truthy error = true ->
         match toString error with
         | Some detail => msg = prefix ++ ": " ++ detail /\ contains detail msg
         | None => msg = snippet
         end) /\
        (truthy error = false -> truthy message = true ->
         match toString message with
         | Some detail => msg = prefix ++ ": " ++ detail /\ contains detail msg
         | None => msg = snippet
         end) /\
        (truthy error = false -> truthy message = false -> msg = prefix) /\
        (forall detail,
            error = JStr detail \/ (truthy error = false /\ message = JStr detail) ->
            contains detail msg)) /\
    (forall body,
        text res = inr body -> body <> "" -> JSON_parse body = None ->
        msg = prefix ++ " - " ++ substring body 0 200 /\
        contains (substring body 0 200) msg /\
        String.length (substring body 0 200) <= 200 /\
        starts_with (substring body 0 200) body) /\
    (text res = inr "" \/ (exists e, text res = inl e) -> msg = prefix).
Proof.
  intros Hok prefix.
  assert (Hafter : forall sep d, contains d (prefix ++ sep ++ d)).
  { intros sep d. exists (prefix ++ sep), "".
    now rewrite append_empty_r, append_assoc. }
  unfold handleJson. rewrite Hok. cbn [negb]. cbv zeta.
  change (status_line res) with prefix.
  eexists. split; [reflexivity |]. split; [| split; [| split]].
  - destruct (text res) as [e | body]; cbn [nonempty].
    + apply starts_with_refl.
    + destruct (nonempty body); [| apply starts_with_refl].
      destruct (JSON_parse body) as [data |]; [| apply starts_with_app].
      destruct (truthy (get_prop data "error")).
      * destruct (toString (get_prop data "error")); apply starts_with_app.
      * destruct (truthy (get_prop data "message")); [| apply starts_with_refl].
        destruct (toString (get_prop data "message")); apply starts_with_app.
  - intros body data Hbody Hne Hparse.
    rewrite Hbody. rewrite (nonempty_true body Hne), Hparse.
    split; [| split; [| split]].
    + intros ->. destruct (toString (get_prop data "error")) as [detail |]; [| reflexivity].
      split; [reflexivity | apply Hafter].
    + intros -> ->.
      destruct (toString (get_prop data "message")) as [detail |]; [| reflexivity].
      split; [reflexivity | apply Hafter].
    + intros -> ->. reflexivity.
    + intros detail [Herr | [Hnoerr Hmsg]].
      * rewrite Herr, truthy_JStr, toString_JStr.
        destruct detail as [|c d]; cbn [nonempty]; [apply contains_empty | apply Hafter].
      * rewrite Hnoerr, Hmsg, truthy_JStr, toString_JStr.
        destruct detail as [|c d]; cbn [nonempty]; [apply contains_empty | apply Hafter].
  - intros body Hbody Hne Hparse.
    rewrite Hbody. rewrite (nonempty_true body Hne), Hparse.
    split; [reflexivity |]. split; [apply Hafter |]. apply substring_prefix.
  - intros [Hempty | [e He]]; [rewrite Hempty | rewrite He]; reflexivity.
Qed.

(** C7.  For a response whose status is in 200-299, [handleJson] returns
    the empty object when the body is empty (or could not be read) and when
    the body is not empty and does not parse as JSON; it throws in neither
    case. *)
Theorem handleJson_success_lenient (res : Response) :
  ok res = true ->
  (exists e, text res = inl e) \/ text res = inr "" \/
  (exists body, text res = inr body /\ body <> "" /\ JSON_parse body = None) ->
  handleJson res = inr (JObj []).
Proof.
  intros Hok Hbody. unfold handleJson. rewrite Hok. simpl.
  destruct Hbody as [[e He] | [Hempty | [body [Hb [Hne Hparse]]]]].
  - rewrite He. reflexivity.
  - rewrite Hempty. reflexivity.
  - rewrite Hb, (nonempty_true body Hne). simpl. rewrite Hparse. reflexivity.
Qed.

(** *** Passphrase normalisation *)

(** Every operation reads its phrase through [normalizePhrase] only. *)
Lemma same_key_same_operations (p q : string) :
  normalizePhrase p = normalizePhrase q -> same_operations p q.
Proof.
  intros Hkey. unfold same_operations.
  unfold getNote, getOrCreateNote, createNote, saveNote, updateNote, getImage,
    deleteImage, uploadImageFromUrl.
  rewrite Hkey. repeat split; reflexivity.
Qed.

(** C10.  Each of the eight exported operations behaves on a passphrase
    with whitespace added before and after exactly as on the passphrase
    itself, and on the trimmed passphrase as on the passphrase; normalising
    an already normalised key, as [getOrCreateNote] does when it calls the
    other operations, changes nothing. *)
Theorem operations_ignore_surrounding_whitespace (l p r : string) :
  all_ws l = true -> all_ws r = true ->
  same_operations (l ++ p ++ r) p /\
  same_operations (normalizePhrase p) p /\
  normalizePhrase (normalizePhrase p) = normalizePhrase p.
Proof.
  intros Hl Hr. split; [| split].
  - apply same_key_same_operations. unfold normalizePhrase.
    now apply trim_surrounding_ws.
  - apply same_key_same_operations. unfold normalizePhrase. apply trim_idempotent.
  - unfold normalizePhrase. apply trim_idempotent.
Qed.


(** *** [getOrCreateNote] *)

Local Open Scope list_scope.

(** Runs a note operation: the URL is built, the request is sent, the
    response is read. *)
Ltac run_operation :=
  unfold getNote, saveNote, createNote, bind, try_catch, lift, ret, throw, do_fetch;
  destruct (endpoints_note _) as [urlErr | u]; simpl;
  [| match goal with
     | |- context [fetch ?req ?w] =>
         destruct (fetch req w) as [[netErr | res] w'] eqn:Hfetch; simpl;
         [| destruct (handleJson res) as [jsonErr | data] eqn:Hjson; simpl]
     end].

Lemma saveNote_success (k message : string) (s s2 : St) (v : JsValue) :
  saveNote k message s = (inr v, s2) ->
  exists u res,
    fetch (write_request PUT u message) (world s) = (inr res, world s2) /\
    handleJson res = inr v /\
    log s2 = log s ++ [write_request PUT u message].
Proof.
  run_operation; intros Hrun; inversion Hrun; subst; clear Hrun.
  exists u, res. simpl. auto.
Qed.

Lemma createNote_success (k message : string) (s s2 : St) (v : JsValue) :
  createNote k message s = (inr v, s2) ->
  exists u res,
    fetch (write_request POST u message) (world s) = (inr res, world s2) /\
    handleJson res = inr v /\
    log s2 = log s ++ [write_request POST u message].
Proof.
  run_operation; intros Hrun; inversion Hrun; subst; clear Hrun.
  exists u, res. simpl. auto.
Qed.

(** Whatever its outcome, an operation on a note sends at most one
    request: [getNote] a GET, [saveNote] a PUT carrying the message,
    [createNote] a POST carrying the message. *)
Lemma getNote_requests (k : string) (s s1 : St) (r : JsValue + JsValue) :
  getNote k s = (r, s1) ->
  exists sent, log s1 = log s ++ sent /\ length sent <= 1 /\ Forall reads sent.
Proof.
  run_operation; intros Hrun; inversion Hrun; subst; clear Hrun; simpl.
  1: exists []; split; [now rewrite app_nil_r | split; [simpl; lia | constructor]].
  all: eexists; split; [reflexivity |]; split; [simpl; lia |].
  all: constructor; [split; reflexivity | constructor].
Qed.

Lemma saveNote_requests (k message : string) (s s2 : St) (r : JsValue + JsValue) :
  saveNote k message s = (r, s2) ->
  exists sent, log s2 = log s ++ sent /\ length sent <= 1 /\
               Forall (sent_as PUT message) sent.
Proof.
  run_operation; intros Hrun; inversion Hrun; subst; clear Hrun; simpl.
  1: exists []; split; [now rewrite app_nil_r | split; [simpl; lia | constructor]].
  all: eexists; split; [reflexivity |]; split; [simpl; lia |].
  all: constructor; [split; reflexivity | constructor].
Qed.

Lemma createNote_requests (k message : string) (s s2 : St) (r : JsValue + JsValue) :
  createNote k message s = (r, s2) ->
  exists sent, log s2 = log s ++ sent /\ length sent <= 1 /\
               Forall (sent_as POST message) sent.
Proof.
  run_operation; intros Hrun; inversion Hrun; subst; clear Hrun; simpl.
  1: exists []; split; [now rewrite app_nil_r | split; [simpl; lia | constructor]].
  all: eexists; split; [reflexivity |]; split; [simpl; lia |].
  all: constructor; [split; reflexivity | constructor].
Qed.

Lemma sent_as_writes (m : Method) (message : string) (req : Request) :
  m = PUT \/ m = POST -> sent_as m message req -> writes_message message req.
Proof. intros Hm [Hmethod Hbody]. split; [now rewrite Hmethod | exact Hbody]. Qed.

Lemma string_field_truthy (v : JsValue) (k m : string) :
  get_prop v k = JStr m -> truthy v = true.
Proof. destruct v; simpl; intros Hf; try discriminate; reflexivity. Qed.

(** C1.  [getOrCreateNote] first reads the key and returns the note read
    when the read succeeds.  When the read fails it upserts the default
    message; when that fails too it creates with the default message; when
    the three fail, the value thrown is the failure of the create if it is
    truthy, otherwise that of the upsert if it is truthy, otherwise that of
    the read.  The requests sent on the way are, in this order, the GET of
    the read, the PUT of the upsert and the POST of the create, the two
    writes carrying the default message (an operation whose URL cannot be
    built sends nothing). *)
Theorem getOrCreateNote_fallback_chain (phrase : string) (s : St) :
  let key := normalizePhrase phrase in
  (forall existing s1,
      getNote key s = (inr existing, s1) ->
      getOrCreateNote phrase s = (inr existing, s1)) /\
  (forall e s1 patchErr s2 postErr s3,
      getNote key s = (inl e, s1) ->
      saveNote key DEFAULT_INIT_MESSAGE s1 = (inl patchErr, s2) ->
      createNote key DEFAULT_INIT_MESSAGE s2 = (inl postErr, s3) ->
      getOrCreateNote phrase s =
        (inl (if truthy postErr then postErr
              else if truthy patchErr then patchErr else e), s3) /\
      exists gets puts posts,
        log s3 = log s ++ gets ++ puts ++ posts /\
        length gets <= 1 /\ length puts <= 1 /\ length posts <= 1 /\
        Forall reads gets /\
        Forall (sent_as PUT DEFAULT_INIT_MESSAGE) puts /\
        Forall (sent_as POST DEFAULT_INIT_MESSAGE) posts).
Proof.
  intros key. split.
  - intros existing s1 Hread.
    unfold getOrCreateNote, try_catch, bind, ret. fold key. now rewrite Hread.
  - intros e s1 patchErr s2 postErr s3 Hread Hput Hpost. split.
    + unfold getOrCreateNote, try_catch, bind, ret, throw, js_or. fold key.
      now rewrite Hread, Hput, Hpost.
    + destruct (getNote_requests _ _ _ _ Hread) as (gets & Hg & Hg1 & Hgets).
      destruct (saveNote_requests _ _ _ _ _ Hput) as (puts & Hp & Hp1 & Hputs).
      destruct (createNote_requests _ _ _ _ _ Hpost) as (posts & Hc & Hc1 & Hposts).
      exists gets, puts, posts.
      rewrite Hc, Hp, Hg, <- !app_assoc. auto 10.
Qed.

Lemma fallback_write_returned (phrase : string) (s s1 s2 : St) (e v : JsValue) :
  getNote (normalizePhrase phrase) s = (inl e, s1) ->
  fallback_write (normalizePhrase phrase) s1 v s2 ->
  truthy v = true ->
  getOrCreateNote phrase s = (inr v, s2).
Proof.
  intros Hread Hwrite Hv.
  unfold getOrCreateNote, try_catch, bind, ret, throw. rewrite Hread.
  destruct Hwrite as [Hput | [patchErr [s' [Hput Hpost]]]].
  - now rewrite Hput, Hv.
  - now rewrite Hput, Hpost, Hv.
Qed.

Lemma fallback_write_last (key : string) (s1 s2 : St) (v : JsValue) :
  fallback_write key s1 v s2 ->
  exists earlier w,
    log s2 = earlier ++ [w] /\ writes_message DEFAULT_INIT_MESSAGE w.
Proof.
  intros [Hput | [patchErr [s' [Hput Hpost]]]].
  - destruct (saveNote_success _ _ _ _ _ Hput) as [u [res [_ [_ Hlog]]]].
    exists (log s1), (write_request PUT u DEFAULT_INIT_MESSAGE).
    split; [exact Hlog | split; [left; reflexivity | reflexivity]].
  - destruct (createNote_success _ _ _ _ _ Hpost) as [u [res [_ [_ Hlog]]]].
    exists (log s'), (write_request POST u DEFAULT_INIT_MESSAGE).
    split; [exact Hlog | split; [right; reflexivity | reflexivity]].
Qed.

(** C2.  After a failed read, as soon as the upsert, or else the create,
    returns a note (any truthy value: every object is one), that value is
    what [getOrCreateNote] returns, in the state the write left: the last
    request issued is the write itself and no read follows it, so whatever
    a read of the key would give after the write plays no part. *)
Theorem getOrCreateNote_trusts_write (phrase : string) (s s1 s2 : St) (e v : JsValue) :
  getNote (normalizePhrase phrase) s = (inl e, s1) ->
  fallback_write (normalizePhrase phrase) s1 v s2 ->
  truthy v = true ->
  getOrCreateNote phrase s = (inr v, s2) /\
  exists earlier w,
    log s2 = earlier ++ [w] /\ writes_message DEFAULT_INIT_MESSAGE w.
Proof.
  intros Hread Hwrite Hv. split.
  - now apply (fallback_write_returned phrase s s1 s2 e v).
  - now apply (fallback_write_last (normalizePhrase phrase) s1 s2 v).
Qed.

(** Only a write that returns a falsy value (the JSON [null], [false], [0]
    or the empty string) sends [getOrCreateNote] to its final read. *)
Lemma getOrCreateNote_final_read (phrase : string) (s s1 s2 : St) (e v : JsValue) :
  getNote (normalizePhrase phrase) s = (inl e, s1) ->
  fallback_write (normalizePhrase phrase) s1 v s2 ->
  truthy v = false ->
  getOrCreateNote phrase s = getNote (normalizePhrase phrase) s2.
Proof.
  intros Hread Hwrite Hv.
  unfold getOrCreateNote, try_catch, bind, ret, throw. rewrite Hread.
  destruct Hwrite as [Hput | [patchErr [s' [Hput Hpost]]]].
  - now rewrite Hput, Hv.
  - now rewrite Hput, Hpost, Hv.
Qed.

Lemma fallback_write_message (key : string) (s1 s2 : St) (v : JsValue) :
  echoes_writes ->
  fallback_write key s1 v s2 ->
  get_prop v "message" = JStr DEFAULT_INIT_MESSAGE.
Proof.
  intros Hecho [Hput | [patchErr [s' [_ Hpost]]]].
  - destruct (saveNote_success _ _ _ _ _ Hput) as [u [res [Hfetch [Hjson _]]]].
    apply (Hecho _ _ _ _ _ _ Hfetch); [| exact Hjson].
    split; [left; reflexivity | reflexivity].
  - destruct (createNote_success _ _ _ _ _ Hpost) as [u [res [Hfetch [Hjson _]]]].
    apply (Hecho _ _ _ _ _ _ Hfetch); [| exact Hjson].
    split; [right; reflexivity | reflexivity].
Qed.

Lemma fallback_write_requests (key : string) (s1 s2 : St) (v : JsValue) :
  fallback_write key s1 v s2 ->
  exists sent,
    log s2 = log s1 ++ sent /\ sent <> [] /\
    Forall (writes_message DEFAULT_INIT_MESSAGE) sent.
Proof.
  intros [Hput | [patchErr [s' [Hput Hpost]]]].
  - destruct (saveNote_success _ _ _ _ _ Hput) as [u [res [_ [_ Hlog]]]].
    exists [write_request PUT u DEFAULT_INIT_MESSAGE].
    split; [exact Hlog | split; [discriminate |]].
    repeat constructor.
  - destruct (saveNote_requests _ _ _ _ _ Hput) as (sent & Hlog & _ & Hsent).
    destruct (createNote_success _ _ _ _ _ Hpost) as [u [res [_ [_ Hlog']]]].
    exists (sent ++ [write_request POST u DEFAULT_INIT_MESSAGE]).
    split; [now rewrite Hlog', Hlog, app_assoc |].
    split; [now destruct sent |].
    apply Forall_app. split.
    + eapply Forall_impl; [| exact Hsent].
      intros req. apply sent_as_writes. now left.
    + constructor; [| constructor]. split; [right; reflexivity | reflexivity].
Qed.

(** C8, as the code has it.  Whenever the read of a key fails and the
    upsert, or else the create, succeeds with a truthy value,
    [getOrCreateNote] succeeds with that value: what [handleJson] made of
    the response to the last request sent, a write carrying the default
    placeholder.  Its message is therefore what that response says: the
    placeholder against a server that answers a write with the note
    written, and nothing the client checks otherwise.  The placeholder is
    the fixed string [Welcome to your new secure note!], which is not
    empty, and every write request sent on the way, upsert and create
    alike, carries it as its message. *)
Theorem getOrCreateNote_default_message (phrase : string) (s s1 s2 : St) (e v : JsValue) :
  getNote (normalizePhrase phrase) s = (inl e, s1) ->
  fallback_write (normalizePhrase phrase) s1 v s2 ->
  truthy v = true ->
  getOrCreateNote phrase s = (inr v, s2) /\
  (exists earlier request before res,
      log s2 = earlier ++ [request] /\
      writes_message DEFAULT_INIT_MESSAGE request /\
      fetch request before = (inr res, world s2) /\
      handleJson res = inr v) /\
  (echoes_writes -> get_prop v "message" = JStr DEFAULT_INIT_MESSAGE) /\
  DEFAULT_INIT_MESSAGE = "Welcome to your new secure note!" /\
  DEFAULT_INIT_MESSAGE <> "" /\
  exists sent,
    log s2 = log s1 ++ sent /\ sent <> [] /\
    Forall (writes_message DEFAULT_INIT_MESSAGE) sent.
Proof.
  intros Hread Hwrite Hv.
  split; [exact (fallback_write_returned phrase s s1 s2 e v Hread Hwrite Hv) |].
  split; [| split; [| split; [reflexivity | split; [discriminate |]]]].
  - destruct Hwrite as [Hput | [patchErr [s' [Hput Hpost]]]].
    + destruct (saveNote_success _ _ _ _ _ Hput) as [u [res [Hfetch [Hjson Hlog]]]].
      exists (log s1), (write_request PUT u DEFAULT_INIT_MESSAGE), (world s1), res.
      split; [exact Hlog |]. split; [split; [left; reflexivity | reflexivity] |].
      split; [exact Hfetch | exact Hjson].
    + destruct (createNote_success _ _ _ _ _ Hpost) as [u [res [Hfetch [Hjson Hlog]]]].
      exists (log s'), (write_request POST u DEFAULT_INIT_MESSAGE), (world s'), res.
      split; [exact Hlog |]. split; [split; [right; reflexivity | reflexivity] |].
      split; [exact Hfetch | exact Hjson].
  - intros Hecho. exact (fallback_write_message _ _ _ _ Hecho Hwrite).
  - now apply (fallback_write_requests (normalizePhrase phrase) s1 s2 v).
Qed.

End Facts.

End ApiFacts.

(* ===================================================================== *)
(** ** The client on scripted networks *)
(* ===================================================================== *)

Module ApiExamples.
Import Js Api Reference ApiFacts.

Example nameGuess_strips_query_and_fragment :
  nameGuess "https://host/path/pic.jpg?x=1#frag" = "pic.jpg" /\
  nameGuess "https://host/" = "image".
Proof. split; reflexivity. Qed.

Lemma script_fresh_echoes : echoes_writes (P := scripted script_fresh).
Proof.
  intros req w res w' message v Hfetch [Hmethod Hbody] Hjson.
  destruct req as [m u h b]. simpl in *. subst b.
  unfold script_fresh in Hfetch. simpl in Hfetch.
  destruct Hmethod as [-> | ->]; simpl in Hfetch;
    (destruct (String.eqb_spec message DEFAULT_INIT_MESSAGE) as [-> | Hne];
     inversion Hfetch; subst; clear Hfetch;
     vm_compute in Hjson; inversion Hjson; reflexivity).
Qed.

(** A server outside its contract.  An upsert answered with the JSON
    [null] is a success with a falsy value: [getOrCreateNote] falls back to
    its final read, whose failure the caller gets.  An upsert answered
    without a body gives the empty object, which is returned as the
    note. *)
Example answers_that_are_not_a_note :
  (let run := getOrCreateNote (P := scripted (script_answering 200 "null"))
                "open sesame" (start (script_answering 200 "null")) in
   fst run = inl (JError "404 Not Found: note not found") /\
   map method (log (snd run)) = [GET; PUT; GET]) /\
  (let run := getOrCreateNote (P := scripted (script_answering 204 ""))
                "open sesame" (start (script_answering 204 "")) in
   fst run = inr (JObj []) /\
   map method (log (snd run)) = [GET; PUT]).
Proof. repeat split. Qed.

(** C1 on the failing network: the failure of the create is what the
    caller gets. *)
Lemma fallback_chain_witness :
  fst (getOrCreateNote (P := scripted script_failing) " open sesame " (start script_failing))
  = inl (JError "409 Conflict: exists").
Proof.
  pose (s := start script_failing).
  pose (s1 := snd (getNote (P := scripted script_failing) "open sesame" s)).
  pose (s2 := snd (saveNote (P := scripted script_failing) "open sesame" DEFAULT_INIT_MESSAGE s1)).
  pose (s3 := snd (createNote (P := scripted script_failing) "open sesame" DEFAULT_INIT_MESSAGE s2)).
  exact (f_equal fst
           (proj1
              (proj2 (getOrCreateNote_fallback_chain (P := scripted script_failing)
                        " open sesame " s)
                 (JError "Network request failed") s1
                 (JError "500 Internal Server Error - <html>oops</html>") s2
                 (JError "409 Conflict: exists") s3
                 eq_refl eq_refl eq_refl))).
Defined.

(** C2 where the upsert is refused and the create answers: the note of
    the create is returned although a read still fails after it. *)
Lemma trusts_write_witness :
  let s := start script_create_only in
  let s2 := snd (getOrCreateNote (P := scripted script_create_only) "open sesame" s) in
  fst (getOrCreateNote (P := scripted script_create_only) "open sesame" s) = inr welcome_note /\
  fst (getNote (P := scripted script_create_only) "open sesame" s2)
  = inl (JError "404 Not Found: note not found") /\
  map method (log s2) = [GET; PUT; POST].
Proof.
  pose (s := start script_create_only).
  pose (s1 := snd (getNote (P := scripted script_create_only) "open sesame" s)).
  pose (s' := snd (saveNote (P := scripted script_create_only) "open sesame" DEFAULT_INIT_MESSAGE s1)).
  pose (s2 := snd (createNote (P := scripted script_create_only) "open sesame" DEFAULT_INIT_MESSAGE s')).
  destruct (getOrCreateNote_trusts_write (P := scripted script_create_only)
              "open sesame" s s1 s2
              (JError "404 Not Found: note not found") welcome_note
              eq_refl
              (or_intror (ex_intro _ (JError "405 Method Not Allowed")
                            (ex_intro _ s' (conj eq_refl eq_refl))))
              eq_refl) as [Hrun _].
  subst s. cbv zeta. rewrite Hrun. repeat split; reflexivity.
Defined.

(** C6 on the body [{"error":"note not found"}] of a 404 response. *)
Lemma failure_message_witness :
  ok not_found = false /\
  handleJson (P := scripted script_fresh) not_found
  = inl (JError "404 Not Found: note not found") /\
  starts_with "404 Not Found" "404 Not Found: note not found" /\
  contains "note not found" "404 Not Found: note not found".
Proof.
  destruct (handleJson_failure_message (P := scripted script_fresh) not_found eq_refl)
    as (msg & Hthrown & Hprefix & Hjson & _).
  destruct (Hjson (error_text "note not found") (JObj [("error", JStr "note not found")])
              eq_refl ltac:(discriminate) eq_refl) as (Herror & _ & _ & Hstring).
  destruct (Herror eq_refl) as [Hmsg _].
  pose proof (Hstring "note not found" (or_introl eq_refl)) as Hcontains.
  rewrite Hmsg in Hthrown, Hprefix, Hcontains.
  split; [reflexivity |]. split; [exact Hthrown |]. split; [exact Hprefix | exact Hcontains].
Defined.

(** C7 on a 204 response without a body. *)
Lemma success_lenient_witness :
  handleJson (P := scripted script_fresh) (json_response 204 "No Content" "") = inr (JObj []).
Proof.
  exact (handleJson_success_lenient (P := scripted script_fresh)
           (json_response 204 "No Content" "") eq_refl (or_intror (or_introl eq_refl))).
Defined.

(** C8 on the fresh server, which answers the upsert with the note
    written: the read fails, the upsert answers, the note returned has the
    placeholder as its message. *)
Lemma default_message_witness :
  let s := start script_fresh in
  fst (getOrCreateNote (P := scripted script_fresh) "open sesame" s) = inr welcome_note /\
  get_prop welcome_note "message" = JStr "Welcome to your new secure note!".
Proof.
  pose (s := start script_fresh).
  pose (s1 := snd (getNote (P := scripted script_fresh) "open sesame" s)).
  pose (s2 := snd (saveNote (P := scripted script_fresh) "open sesame" DEFAULT_INIT_MESSAGE s1)).
  destruct (getOrCreateNote_default_message (P := scripted script_fresh)
              "open sesame" s s1 s2
              (JError "404 Not Found: note not found") welcome_note
              eq_refl (or_introl eq_refl) eq_refl) as (Hrun & _ & Hmsg & _).
  subst s. cbv zeta. rewrite Hrun. split; [reflexivity | exact (Hmsg script_fresh_echoes)].
Defined.

(** C8, the claim as stated fails against a server that answers the
    upsert with 204 and no body: the read fails, the upsert succeeds with
    the empty object, and [getOrCreateNote] returns that object, which has
    no message. *)
Lemma write_answered_without_body_has_no_message :
  let script := script_answering 204 "" in
  let s := start script in
  let s1 := snd (getNote (P := scripted script) "open sesame" s) in
  fst (getNote (P := scripted script) "open sesame" s)
  = inl (JError "404 Not Found: note not found") /\
  fst (saveNote (P := scripted script) "open sesame" DEFAULT_INIT_MESSAGE s1) = inr (JObj []) /\
  fst (getOrCreateNote (P := scripted script) "open sesame" s) = inr (JObj []) /\
  get_prop (JObj []) "message" = JUndefined.
Proof. vm_compute. repeat split. Qed.

(** C10 on a phrase typed with blanks around it. *)
Lemma surrounding_whitespace_witness :
  same_operations (P := scripted script_fresh) "  open sesame " "open sesame".
Proof.
  exact (proj1 (operations_ignore_surrounding_whitespace (P := scripted script_fresh)
                  "  " "open sesame" " " eq_refl eq_refl)).
Defined.

End ApiExamples.

(* ===================================================================== *)
(** ** The autosave effect: invariant and timing *)
(* ===================================================================== *)

Module AutosaveFacts.
Import Js Autosave.
Local Open Scope list_scope.
Local Open Scope nat_scope.

Section Facts.
Context {num : JsNumber}.

Lemma set_timers_same (s : Screen) : set_timers (timers s) s = s.
Proof. destruct s; reflexivity. Qed.

Lemma Inv_tracked (s : Screen) : Inv s -> tracked s.
Proof.
  intros [_ [_ [Hnone | [tm Hp]]]]; [now left | right].
  destruct Hp as (Ht & Hs & Hz & _ & Hc & _). now exists tm.
Qed.

Lemma run_cleanup_tracked (s : Screen) : tracked s -> run_cleanup s = set_timers [] s.
Proof.
  intros [Hnone | [tm (Ht & Hs & Hz & Hc)]]; unfold run_cleanup, clear_saveTimeout, clearTimeout.
  - rewrite Hnone. simpl.
    destruct (cleanup s); [| now rewrite <- Hnone, set_timers_same].
    destruct (saveTimeout s) as [id |]; [| now rewrite <- Hnone, set_timers_same].
    destruct (negb (id =? 0)); [reflexivity | now rewrite <- Hnone, set_timers_same].
  - rewrite Hc, Hs, Ht. apply Nat.eqb_neq in Hz. rewrite Hz. simpl.
    now rewrite Nat.eqb_refl.
Qed.

Lemma clear_saveTimeout_empty (s : Screen) :
  clear_saveTimeout (set_timers [] s) = set_timers [] s.
Proof.
  unfold clear_saveTimeout, clearTimeout. simpl.
  destruct (saveTimeout s) as [id |]; [| reflexivity].
  now destruct (negb (id =? 0)).
Qed.

(** On a tracked screen a render with a changed dependency leaves no timer
    when the effect returns early, and otherwise exactly the timer it
    arms. *)
Lemma rerender_tracked (s : Screen) :
  tracked s ->
  rerender s = if returns_early s then set_cleanup false (set_timers [] s)
               else arm 2000 (set_timers [] s).
Proof.
  intros Ht. unfold rerender. rewrite (run_cleanup_tracked s Ht).
  unfold effect, returns_early.
  change (note (set_timers [] s)) with (note s).
  change (valid (set_timers [] s)) with (valid s).
  change (message (set_timers [] s)) with (message s).
  destruct (truthy (note s)); cbn [negb orb]; [| reflexivity].
  destruct (valid s); cbn [negb orb]; [| reflexivity].
  destruct (strict_eq_string (message s) (get_prop (note s) "message")); [reflexivity |].
  now rewrite clear_saveTimeout_empty.
Qed.

(** *** The clock *)

Lemma advance_idle (t : N) (s : Screen) :
  timers s = [] -> advance t s = set_now (N.max (now s) t) s.
Proof.
  intros Ht. unfold advance. rewrite Ht. simpl.
  now rewrite <- Ht, set_timers_same.
Qed.

Lemma advance_waiting (t : N) (s : Screen) (tm : Timer) :
  timers s = [tm] -> (t < due tm)%N -> advance t s = set_now (N.max (now s) t) s.
Proof.
  intros Ht Hlt. unfold advance, is_due. rewrite Ht. simpl.
  apply N.leb_gt in Hlt. rewrite Hlt. simpl.
  now rewrite <- Ht, set_timers_same.
Qed.

Lemma advance_fires (t : N) (s : Screen) (tm : Timer) :
  timers s = [tm] -> (due tm <= t)%N ->
  advance t s = set_now (N.max (now s) t) (fire tm (set_timers [] s)).
Proof.
  intros Ht Hle. unfold advance, is_due. rewrite Ht. simpl.
  apply N.leb_le in Hle. rewrite Hle. reflexivity.
Qed.

(** *** The invariant *)

(** The timer just armed is the pending one. *)
Ltac armed_is_pending :=
  eexists; unfold pending; split; [reflexivity |];
  cbn [tid due t_phrase t_message]; simpl;
  repeat match goal with |- _ /\ _ => split end;
  first [reflexivity | assumption | lia].

Lemma Inv_loaded (p : string) (n : JsValue) (m : string) (t0 : N) :
  Inv (effect (holding p n m t0)).
Proof.
  unfold effect.
  destruct (truthy (note (holding p n m t0))) eqn:Hnote; cbn [negb];
    [| split; [simpl; lia | split; [constructor | now left]]].
  destruct (valid (holding p n m t0)) eqn:Hvalid; cbn [negb];
    [| split; [simpl; lia | split; [constructor | now left]]].
  destruct (strict_eq_string (message (holding p n m t0))
              (get_prop (note (holding p n m t0)) "message")) eqn:Hdiff;
    [split; [simpl; lia | split; [constructor | now left]] |].
  split; [simpl; lia | split; [constructor | right]].
  armed_is_pending.
Qed.

(** Whatever [onLoad] stores, the loaded screen satisfies the invariant. *)
Lemma Inv_of_loaded (p : string) (n : JsValue) (t0 : N) (s : Screen) :
  loaded p n t0 = Some s -> Inv s.
Proof.
  unfold loaded, stored. destruct (shown n) as [m |]; simpl; [| discriminate].
  intros H. inversion H. apply Inv_loaded.
Qed.

(** A render with a changed dependency restores the invariant on any
    tracked screen. *)
Lemma Inv_rerender (s : Screen) :
  tracked s -> 0 < next_timer s ->
  Forall (fun w => wid w < next_write s) (inflight s) ->
  Inv (rerender s).
Proof.
  intros Ht Hpos Hw. rewrite (rerender_tracked s Ht).
  destruct (returns_early s) eqn:Hearly.
  - split; [exact Hpos | split; [exact Hw | now left]].
  - unfold returns_early in Hearly.
    apply orb_false_iff in Hearly as [Hearly Heq].
    apply orb_false_iff in Hearly as [Hnote Hvalid].
    apply negb_false_iff in Hnote. apply negb_false_iff in Hvalid.
    split; [simpl; lia | split; [exact Hw | right]].
    armed_is_pending.
Qed.

Lemma Inv_setMessage (m : string) (s : Screen) : Inv s -> Inv (setMessage m s).
Proof.
  intros HI. unfold setMessage. destruct (String.eqb m (message s)); [exact HI |].
  apply Inv_rerender;
    [exact (Inv_tracked s HI) | exact (proj1 HI) | exact (proj1 (proj2 HI))].
Qed.

Lemma Inv_setNote (v : JsValue) (s : Screen) : Inv s -> Inv (setNote v s).
Proof.
  intros HI. unfold setNote. destruct (same_value (note s) v); [exact HI |].
  apply Inv_rerender;
    [exact (Inv_tracked s HI) | exact (proj1 HI) | exact (proj1 (proj2 HI))].
Qed.

Lemma Inv_advance (t : N) (s : Screen) : Inv s -> Inv (advance t s).
Proof.
  intros HI. destruct HI as [Hpos [Hw [Hnone | [tm Hp]]]].
  - rewrite (advance_idle t s Hnone).
    split; [exact Hpos | split; [exact Hw | now left]].
  - assert (Ht : timers s = [tm]) by apply Hp.
    destruct (N.le_gt_cases (due tm) t) as [Hdue | Hwait].
    + rewrite (advance_fires t s tm Ht Hdue).
      split; [exact Hpos | split; [| now left]]. simpl.
      apply Forall_app. split.
      * eapply Forall_impl; [| exact Hw]. simpl. intros w Hlt. lia.
      * constructor; [simpl; lia | constructor].
    + rewrite (advance_waiting t s tm Ht Hwait).
      split; [exact Hpos | split; [exact Hw | right; exists tm; exact Hp]].
Qed.

Lemma Inv_resolve (w : nat) (r : JsValue + JsValue) (s : Screen) : Inv s -> Inv (resolve w r s).
Proof.
  intros HI. unfold resolve.
  destruct (existsb (fun x => wid x =? w) (inflight s)); [| exact HI].
  assert (HI1 : Inv (set_inflight (filter (fun x => negb (wid x =? w)) (inflight s)) s)).
  { destruct HI as [Hpos [Hw Ht]]. split; [exact Hpos | split; [| exact Ht]].
    simpl. apply Forall_forall. intros x Hx. apply filter_In in Hx as [Hx _].
    revert x Hx. now apply Forall_forall. }
  destruct r as [e | updated].
  - destruct HI1 as [Hpos [Hw Ht]]. split; [exact Hpos | split; [exact Hw | exact Ht]].
  - pose proof (Inv_setNote updated _ HI1) as [Hpos [Hw Ht]].
    split; [exact Hpos | split; [exact Hw | exact Ht]].
Qed.

Lemma Inv_step (s : Screen) (te : N * Event) : Inv s -> Inv (step s te).
Proof.
  intros HI. unfold step. destruct (snd te) as [m | w r].
  - apply Inv_setMessage, Inv_advance, HI.
  - apply Inv_resolve, Inv_advance, HI.
Qed.

(** The invariant holds from the moment a note is loaded, whatever edits,
    timer expiries and responses follow. *)
Lemma Inv_run (events : list (N * Event)) (s : Screen) : Inv s -> Inv (run events s).
Proof.
  revert s. induction events as [|te events IH]; intros s HI; simpl; [exact HI |].
  apply IH, Inv_step, HI.
Qed.

(** *** What an edit does *)

Lemma frame_refl (s : Screen) : frame s s.
Proof. repeat split. Qed.

Lemma frame_trans (a b c : Screen) : frame a b -> frame b c -> frame a c.
Proof.
  intros (H1 & H2 & H3 & H4 & H5 & H6 & H7) (G1 & G2 & G3 & G4 & G5 & G6 & G7).
  repeat split; congruence.
Qed.

Lemma clear_saveTimeout_frame (s : Screen) :
  frame s (clear_saveTimeout s) /\
  next_timer (clear_saveTimeout s) = next_timer s /\
  forall tm, In tm (timers (clear_saveTimeout s)) -> In tm (timers s).
Proof.
  unfold clear_saveTimeout, clearTimeout.
  destruct (saveTimeout s) as [id |]; [| split; [apply frame_refl | auto]].
  destruct (negb (id =? 0)); [| split; [apply frame_refl | auto]].
  split; [repeat split | split; [reflexivity |]].
  simpl. intros tm Hin. now apply filter_In in Hin.
Qed.

Lemma run_cleanup_frame (s : Screen) :
  frame s (run_cleanup s) /\
  next_timer (run_cleanup s) = next_timer s /\
  forall tm, In tm (timers (run_cleanup s)) -> In tm (timers s).
Proof.
  unfold run_cleanup. destruct (cleanup s); [apply clear_saveTimeout_frame |].
  split; [apply frame_refl | auto].
Qed.

Lemma effect_frame (s : Screen) : frame s (effect s).
Proof.
  unfold effect.
  destruct (negb (truthy (note s))); [repeat split |].
  destruct (negb (valid s)); [repeat split |].
  destruct (strict_eq_string (message s) (get_prop (note s) "message")); [repeat split |].
  apply (frame_trans s (clear_saveTimeout s)); [apply clear_saveTimeout_frame |].
  repeat split.
Qed.

Lemma rerender_frame (s : Screen) : frame s (rerender s).
Proof.
  unfold rerender.
  apply (frame_trans s (run_cleanup s)); [apply run_cleanup_frame | apply effect_frame].
Qed.

(** An edit at time [t], before any armed timer is due: nothing is
    written; unless the value is the one already held, the armed timer is
    cancelled and, when the effect does not return early, a timer due at
    [t + 2000] carrying the new value is armed. *)
Lemma step_edit (s : Screen) (t : N) (m : string) :
  Inv s -> (now s <= t)%N -> Forall (fun tm => (t < due tm)%N) (timers s) ->
  let s' := step s (t, Edit m) in
  Inv s' /\ writes s' = writes s /\ inflight s' = inflight s /\
  next_write s' = next_write s /\ note s' = note s /\ phrase s' = phrase s /\
  now s' = t /\ message s' = m /\
  (if String.eqb m (message s) then timers s' = timers s
   else timers s' = if returns_early (set_message m s) then []
                    else [timer_for s t m]).
Proof.
  intros HI Hnow Hquiet s'.
  assert (HI' : Inv s') by (apply Inv_step, HI).
  assert (Hadv : advance t s = set_now t s).
  { destruct HI as [_ [_ [Hnone | [tm Hp]]]].
    - rewrite (advance_idle t s Hnone). now rewrite N.max_r.
    - assert (Ht : timers s = [tm]) by apply Hp.
      rewrite Ht in Hquiet. inversion Hquiet; subst.
      rewrite (advance_waiting t s tm Ht) by assumption. now rewrite N.max_r. }
  assert (Hstep : step s (t, Edit m) = setMessage m (set_now t s))
    by (unfold step; cbn [fst snd]; now rewrite Hadv).
  subst s'. rewrite Hstep in *. clear Hstep.
  unfold setMessage in *. change (message (set_now t s)) with (message s) in *.
  destruct (String.eqb_spec m (message s)) as [Heq | Hne].
  - split; [exact HI' |]. simpl. repeat split. now symmetry.
  - destruct (rerender_frame (set_message m (set_now t s)))
      as (Hw & Hi & Hn & Hnote & Hp & Hclock & Hm).
    split; [exact HI' |]. rewrite Hw, Hi, Hn, Hnote, Hp, Hclock, Hm.
    simpl. repeat split.
    assert (Ht : tracked (set_message m (set_now t s))) by exact (Inv_tracked s HI).
    rewrite (rerender_tracked _ Ht).
    change (returns_early (set_message m (set_now t s)))
      with (returns_early (set_message m s)).
    destruct (returns_early (set_message m s)); reflexivity.
Qed.

(** C5.  An edit whose value is the message of the confirmed note arms no
    timer and issues no write: [setTimeout] is not called, every timer
    armed afterwards was armed before, and the writes issued and in flight
    are unchanged.  On a screen as the component keeps it, no timer is left
    at all, so no write follows however long one waits. *)
Theorem edit_to_confirmed_value_is_noop (s : Screen) (m : string) :
  get_prop (note s) "message" = JStr m ->
  let s' := setMessage m s in
  next_timer s' = next_timer s /\
  (forall tm, In tm (timers s') -> In tm (timers s)) /\
  writes s' = writes s /\ inflight s' = inflight s /\
  (Inv s -> timers s' = [] /\ forall T, writes (advance T s') = writes s).
Proof.
  intros Hconfirmed s'. subst s'. unfold setMessage.
  destruct (String.eqb_spec m (message s)) as [Heq | Hne].
  - split; [reflexivity |]. split; [auto |]. split; [reflexivity |].
    split; [reflexivity |]. intros HI.
    assert (Hnone : timers s = []).
    { destruct HI as [_ [_ [Hnone | [tm Hp]]]]; [exact Hnone |].
      destruct Hp as (_ & _ & _ & _ & _ & _ & _ & _ & _ & Hdiff).
      rewrite Hconfirmed, <- Heq in Hdiff. simpl in Hdiff.
      now rewrite String.eqb_refl in Hdiff. }
    split; [exact Hnone |]. intros T. now rewrite (advance_idle T s Hnone).
  - assert (Hearly : returns_early (set_message m s) = true).
    { unfold returns_early. change (note (set_message m s)) with (note s).
      change (message (set_message m s)) with m.
      rewrite Hconfirmed. simpl. rewrite String.eqb_refl. apply orb_true_r. }
    assert (Hshape : rerender (set_message m s)
                     = set_cleanup false (run_cleanup (set_message m s))).
    { unfold rerender, effect.
      assert (Hsame : returns_early (run_cleanup (set_message m s)) = true).
      { rewrite <- Hearly. unfold returns_early, valid, run_cleanup, clear_saveTimeout, clearTimeout.
        change (cleanup (set_message m s)) with (cleanup s).
        change (saveTimeout (set_message m s)) with (saveTimeout s).
        destruct (cleanup s); [| reflexivity].
        destruct (saveTimeout s) as [id |]; [| reflexivity].
        destruct (negb (id =? 0)); reflexivity. }
      unfold returns_early in Hsame.
      destruct (truthy (note (run_cleanup (set_message m s)))); cbn [negb orb] in *; [| reflexivity].
      destruct (valid (run_cleanup (set_message m s))); cbn [negb orb] in *; [| reflexivity].
      now rewrite Hsame. }
    rewrite Hshape.
    destruct (run_cleanup_frame (set_message m s))
      as ((Hw & Hi & _) & Hn & Hsub).
    split; [exact Hn |]. split; [exact Hsub |]. split; [exact Hw |]. split; [exact Hi |].
    intros HI.
    assert (Ht : tracked (set_message m s)) by exact (Inv_tracked s HI).
    rewrite (run_cleanup_tracked _ Ht).
    split; [reflexivity |]. intros T.
    now rewrite advance_idle.
Qed.


(** *** Timers that fire, responses that arrive *)

Lemma advance_writes (T : N) (s : Screen) (tm : Timer) :
  timers s = [tm] -> (due tm <= T)%N ->
  timers (advance T s) = [] /\
  writes (advance T s) = writes s ++ [(t_phrase tm, t_message tm)] /\
  inflight (advance T s)
  = inflight s ++ [{| wid := next_write s; w_phrase := t_phrase tm; w_message := t_message tm |}] /\
  note (advance T s) = note s /\ message (advance T s) = message s /\
  phrase (advance T s) = phrase s /\ now (advance T s) = N.max (now s) T.
Proof.
  intros Ht Hdue. rewrite (advance_fires T s tm Ht Hdue). repeat split.
Qed.

Lemma advance_idle_writes (T : N) (s : Screen) :
  timers s = [] -> writes (advance T s) = writes s.
Proof. intros Ht. now rewrite (advance_idle T s Ht). Qed.

Lemma resolve_writes (w : nat) (r : JsValue + JsValue) (s : Screen) :
  writes (resolve w r s) = writes s /\ phrase (resolve w r s) = phrase s /\
  message (resolve w r s) = message s /\ now (resolve w r s) = now s.
Proof.
  unfold resolve. destruct (existsb _ _); [| repeat split].
  destruct r as [e | updated]; [repeat split |].
  unfold setNote. simpl.
  destruct (same_value (note s) updated); [repeat split |].
  destruct (rerender_frame
              (set_note updated (set_inflight (filter (fun x => negb (wid x =? w)) (inflight s)) s)))
    as (Hw & _ & _ & _ & Hp & Hn & Hm).
  simpl. rewrite Hw, Hp, Hn, Hm. repeat split.
Qed.

(** With no timer armed, a failure, or a note whose message is the one
    on screen, leaves no timer armed. *)
Lemma resolve_settles (w : nat) (r : JsValue + JsValue) (s : Screen) :
  timers s = [] ->
  answer_ok (fun updated =>
               strict_eq_string (message s) (get_prop updated "message") = true) r ->
  timers (resolve w r s) = [].
Proof.
  intros Ht Hr. unfold resolve. destruct (existsb _ _); [| exact Ht].
  destruct r as [e | updated]; [exact Ht |].
  unfold setNote. simpl in *.
  destruct (same_value (note s) updated); [exact Ht |].
  set (s1 := set_note updated
               (set_inflight (filter (fun x => negb (wid x =? w)) (inflight s)) s)).
  assert (Htr : tracked s1) by (left; exact Ht).
  simpl. rewrite (rerender_tracked s1 Htr).
  assert (Hearly : returns_early s1 = true).
  { unfold returns_early. change (message s1) with (message s).
    change (note s1) with updated. rewrite Hr. apply orb_true_r. }
  now rewrite Hearly.
Qed.

(** With the timer for the message on screen armed, a failure, or a note
    whose message differs from the one on screen, leaves a timer for that
    message armed: the same one, or a fresh one due 2000 ms after the
    response. *)
Lemma resolve_keeps_pending (w : nat) (r : JsValue + JsValue) (s : Screen) (tm : Timer) :
  pending s tm ->
  answer_ok (fun updated =>
               truthy updated = true /\
               strict_eq_string (message s) (get_prop updated "message") = false) r ->
  exists tm',
    timers (resolve w r s) = [tm'] /\ t_message tm' = message s /\
    t_phrase tm' = phrase s /\ (due tm' = due tm \/ due tm' = (now s + 2000)%N).
Proof.
  intros Hp Hr.
  destruct Hp as (Ht & Hs & Hz & Hlt & Hc & Hm & Hph & Hnote & Hvalid & Hdiff).
  unfold resolve. destruct (existsb _ _); [| exists tm; auto].
  destruct r as [e | updated]; [exists tm; auto |].
  unfold setNote. simpl in *.
  destruct (same_value (note s) updated); [exists tm; auto |].
  set (s1 := set_note updated
               (set_inflight (filter (fun x => negb (wid x =? w)) (inflight s)) s)).
  assert (Htr : tracked s1) by (right; exists tm; auto).
  simpl. rewrite (rerender_tracked s1 Htr).
  assert (Hearly : returns_early s1 = false).
  { unfold returns_early. change (message s1) with (message s).
    change (note s1) with updated. change (valid s1) with (valid s).
    destruct Hr as [Htruthy Hne]. now rewrite Htruthy, Hvalid, Hne. }
  rewrite Hearly. eexists. split; [reflexivity |]. simpl. auto.
Qed.

(** *** Timers and writes over time *)

Lemma fire_all (ready : list Timer) (s : Screen) :
  let s' := fold_left (fun acc tm => fire tm acc) ready s in
  writes s' = writes s ++ map (fun tm => (t_phrase tm, t_message tm)) ready /\
  phrase s' = phrase s /\ timers s' = timers s /\ message s' = message s /\
  note s' = note s.
Proof.
  revert s. induction ready as [|tm ready IH]; intros s; simpl.
  - now rewrite app_nil_r.
  - destruct (IH (fire tm s)) as (Hw & Hp & Ht & Hm & Hn).
    rewrite Hw, Hp, Ht, Hm, Hn. simpl. now rewrite <- app_assoc.
Qed.

(** What has been written once the clock reaches [T]: one write for each
    timer due by then, in the order the timers were set. *)
Lemma advance_writes_due (T : N) (s : Screen) :
  writes (advance T s)
  = writes s ++ map (fun tm => (t_phrase tm, t_message tm)) (filter (is_due T) (timers s)).
Proof.
  unfold advance. simpl.
  now destruct (fire_all (filter (is_due T) (timers s))
                  (set_timers (filter (fun tm => negb (is_due T tm)) (timers s)) s))
    as (-> & _).
Qed.

Lemma advance_timers (T : N) (s : Screen) :
  timers (advance T s) = filter (fun tm => negb (is_due T tm)) (timers s) /\
  message (advance T s) = message s.
Proof.
  unfold advance. simpl.
  now destruct (fire_all (filter (is_due T) (timers s))
                  (set_timers (filter (fun tm => negb (is_due T tm)) (timers s)) s))
    as (_ & _ & -> & -> & _).
Qed.

(** The writes of a screen with at most the timer [tm]. *)
Lemma advance_one_timer (T : N) (s : Screen) (tm : Timer) (armed : bool) :
  timers s = (if armed then [tm] else []) ->
  writes (advance T s)
  = writes s ++ (if armed && is_due T tm then [(t_phrase tm, t_message tm)] else []) /\
  timers (advance T s) = (if armed && negb (is_due T tm) then [tm] else []).
Proof.
  intros Ht. destruct (advance_timers T s) as [Hts _].
  rewrite advance_writes_due, Hts, Ht.
  destruct armed; simpl; [| auto]. destruct (is_due T tm); simpl; auto.
Qed.

(** An edit that changes the message of a screen with a note and a valid
    phrase, made before the armed timer is due: the timer is cancelled and,
    unless the new value is the message of the note, a timer is armed for
    2000 ms carrying the new value. *)
Lemma step_edit_arms (s : Screen) (t : N) (m : string) :
  Inv s -> (now s <= t)%N -> Forall (fun tm => (t < due tm)%N) (timers s) ->
  truthy (note s) = true -> valid s = true -> m <> message s ->
  let s' := step s (t, Edit m) in
  Inv s' /\ writes s' = writes s /\ inflight s' = inflight s /\
  next_write s' = next_write s /\ note s' = note s /\ phrase s' = phrase s /\
  now s' = t /\ message s' = m /\
  timers s' = (if strict_eq_string m (get_prop (note s) "message") then []
               else [timer_for s t m]).
Proof.
  intros HI Hnow Hquiet Hnote Hvalid Hne.
  destruct (step_edit s t m HI Hnow Hquiet) as (A & B & C & D & E & F & G & H & I).
  cbv zeta. split; [exact A |]. split; [exact B |]. split; [exact C |].
  split; [exact D |]. split; [exact E |]. split; [exact F |]. split; [exact G |].
  split; [exact H |].
  apply String.eqb_neq in Hne. rewrite Hne in I. rewrite I.
  unfold returns_early. change (note (set_message m s)) with (note s).
  change (valid (set_message m s)) with (valid s).
  change (message (set_message m s)) with m.
  now rewrite Hnote, Hvalid.
Qed.

(** C3.  On a screen with a note loaded and a valid phrase, whose armed
    timer (if any) is not yet due: three edits that each change the
    message, each less than 2000 ms after the one before.  Every edit
    cancels the running timer and, unless its value is the message of the
    note, arms a new timer with a new id, due 2000 ms after the edit and
    carrying the value of that edit.  The edits issue no write themselves,
    and nothing is written before 2000 ms have passed since the last edit.
    From then on exactly one write has been issued, an upsert of the last
    value, and it stays the only one after its response (a failure, or a
    note echoing that value) -- unless the last value is the message of the
    note, in which case nothing is written at all. *)
Theorem autosave_coalesces_edits (s : Screen) (t1 t2 t3 : N) (m1 m2 m3 : string) :
  Inv s -> truthy (note s) = true -> valid s = true ->
  (now s <= t1)%N -> Forall (fun tm => (t1 < due tm)%N) (timers s) ->
  (t1 <= t2)%N -> (t2 < t1 + 2000)%N -> (t2 <= t3)%N -> (t3 < t2 + 2000)%N ->
  m1 <> message s -> m2 <> m1 -> m3 <> m2 ->
  let confirmed m := strict_eq_string m (get_prop (note s) "message") in
  let s1 := step s (t1, Edit m1) in
  let s2 := step s1 (t2, Edit m2) in
  let s3 := step s2 (t3, Edit m3) in
  let written := if confirmed m3 then [] else [(phrase s, m3)] in
  s3 = run [(t1, Edit m1); (t2, Edit m2); (t3, Edit m3)] s /\
  timers s1 = (if confirmed m1 then []
               else [{| tid := next_timer s; due := (t1 + 2000)%N;
                        t_phrase := phrase s; t_message := m1 |}]) /\
  timers s2 = (if confirmed m2 then []
               else [{| tid := next_timer s1; due := (t2 + 2000)%N;
                        t_phrase := phrase s; t_message := m2 |}]) /\
  timers s3 = (if confirmed m3 then []
               else [{| tid := next_timer s2; due := (t3 + 2000)%N;
                        t_phrase := phrase s; t_message := m3 |}]) /\
  (forall tm, In tm (timers s) -> ~ In tm (timers s1)) /\
  (forall tm, In tm (timers s1) -> ~ In tm (timers s2)) /\
  (forall tm, In tm (timers s2) -> ~ In tm (timers s3)) /\
  writes s3 = writes s /\
  (forall T, (T < t3 + 2000)%N -> writes (advance T s3) = writes s) /\
  (forall T, (t3 + 2000 <= T)%N -> writes (advance T s3) = writes s ++ written) /\
  (forall T T' T'' w r,
     (t3 + 2000 <= T)%N ->
     answer_ok (fun updated =>
                  strict_eq_string m3 (get_prop updated "message") = true) r ->
     writes (advance T'' (step (advance T s3) (T', Resolve w r))) = writes s ++ written).
Proof.
  intros HI Hnote Hvalid Hn1 Hq0 H12 Hgap12 H23 Hgap23 Hne1 Hne2 Hne3
         confirmed s1 s2 s3 written.
  (* first edit *)
  destruct (step_edit_arms s t1 m1 HI Hn1 Hq0 Hnote Hvalid Hne1)
    as (HI1 & Hw1 & Hi1 & Hnw1 & Hnote1 & Hp1 & Hnow1 & Hm1 & Ht1).
  fold s1 in HI1, Hw1, Hi1, Hnw1, Hnote1, Hp1, Hnow1, Hm1, Ht1.
  fold (confirmed m1) in Ht1. unfold timer_for in Ht1.
  assert (Hq1 : Forall (fun tm => (t2 < due tm)%N) (timers s1)).
  { rewrite Ht1. destruct (confirmed m1); [constructor |].
    constructor; [simpl; lia | constructor]. }
  (* second edit *)
  assert (Hn2 : (now s1 <= t2)%N) by lia.
  assert (Hnote1' : truthy (note s1) = true) by (now rewrite Hnote1).
  assert (Hvalid1 : valid s1 = true) by (unfold valid in *; now rewrite Hp1).
  assert (Hne2' : m2 <> message s1) by (now rewrite Hm1).
  destruct (step_edit_arms s1 t2 m2 HI1 Hn2 Hq1 Hnote1' Hvalid1 Hne2')
    as (HI2 & Hw2 & Hi2 & Hnw2 & Hnote2 & Hp2 & Hnow2 & Hm2 & Ht2).
  fold s2 in HI2, Hw2, Hi2, Hnw2, Hnote2, Hp2, Hnow2, Hm2, Ht2.
  rewrite Hnote1 in Ht2. fold (confirmed m2) in Ht2.
  unfold timer_for in Ht2. rewrite Hp1 in Ht2.
  assert (Hq2 : Forall (fun tm => (t3 < due tm)%N) (timers s2)).
  { rewrite Ht2. destruct (confirmed m2); [constructor |].
    constructor; [simpl; lia | constructor]. }
  (* third edit *)
  assert (Hn3 : (now s2 <= t3)%N) by lia.
  assert (Hnote2' : truthy (note s2) = true) by (now rewrite Hnote2).
  assert (Hvalid2 : valid s2 = true) by (unfold valid in *; now rewrite Hp2).
  assert (Hne3' : m3 <> message s2) by (now rewrite Hm2).
  destruct (step_edit_arms s2 t3 m3 HI2 Hn3 Hq2 Hnote2' Hvalid2 Hne3')
    as (HI3 & Hw3 & Hi3 & Hnw3 & Hnote3 & Hp3 & Hnow3 & Hm3 & Ht3).
  fold s3 in HI3, Hw3, Hi3, Hnw3, Hnote3, Hp3, Hnow3, Hm3, Ht3.
  rewrite Hnote2, Hnote1 in Ht3. fold (confirmed m3) in Ht3.
  unfold timer_for in Ht3. rewrite Hp2, Hp1 in Ht3.
  assert (Hwrites : writes s3 = writes s) by congruence.
  (* the timer of the last edit, when there is one *)
  set (last := {| tid := next_timer s2; due := (t3 + 2000)%N;
                  t_phrase := phrase s; t_message := m3 |}) in *.
  assert (Ht3' : timers s3 = (if negb (confirmed m3) then [last] else []))
    by (rewrite Ht3; now destruct (confirmed m3)).
  assert (Hlater : forall T,
             writes (advance T s3)
             = writes s ++ (if negb (confirmed m3) && is_due T last
                            then [(phrase s, m3)] else []) /\
             timers (advance T s3)
             = (if negb (confirmed m3) && negb (is_due T last) then [last] else [])).
  { intros T. destruct (advance_one_timer T s3 last _ Ht3') as [Hw Ht].
    rewrite Hw, Ht, Hwrites. split; reflexivity. }
  assert (Hdue : forall T, (t3 + 2000 <= T)%N -> is_due T last = true)
    by (intros T HT; unfold is_due; simpl; now apply N.leb_le).
  assert (Hnot : forall T, (T < t3 + 2000)%N -> is_due T last = false)
    by (intros T HT; unfold is_due; simpl; now apply N.leb_gt).
  split; [reflexivity |]. split; [exact Ht1 |]. split; [exact Ht2 |].
  split; [exact Ht3 |]. split; [| split; [| split]].
  - intros tm Hin Hin1. rewrite Ht1 in Hin1.
    destruct (confirmed m1); [exact Hin1 |].
    destruct Hin1 as [<- | []].
    destruct HI as (_ & _ & [Hnone | (tm0 & Hpend)]).
    + rewrite Hnone in Hin. exact Hin.
    + destruct Hpend as (Hts & _ & _ & _ & _ & Hmsg & _).
      rewrite Hts in Hin. destruct Hin as [Heq | []].
      rewrite Heq in Hmsg. simpl in Hmsg. congruence.
  - intros tm Hin Hin2. rewrite Ht1 in Hin. rewrite Ht2 in Hin2.
    destruct (confirmed m1); [exact Hin |]. destruct (confirmed m2); [exact Hin2 |].
    destruct Hin as [<- | []]. destruct Hin2 as [Heq | []].
    inversion Heq. congruence.
  - intros tm Hin Hin3. rewrite Ht2 in Hin. rewrite Ht3 in Hin3.
    destruct (confirmed m2); [exact Hin |]. destruct (confirmed m3); [exact Hin3 |].
    destruct Hin as [<- | []]. destruct Hin3 as [Heq | []].
    inversion Heq. congruence.
  - split; [exact Hwrites |]. split; [| split].
    + intros T HT. destruct (Hlater T) as [-> _]. rewrite (Hnot T HT).
      rewrite Bool.andb_false_r. apply app_nil_r.
    + intros T HT. destruct (Hlater T) as [-> _]. rewrite (Hdue T HT).
      unfold written. now destruct (confirmed m3).
    + intros T T' T'' w r HT Hr.
      destruct (Hlater T) as [Hw4 Ht4]. rewrite (Hdue T HT) in Hw4, Ht4.
      rewrite Bool.andb_false_r in Ht4. rewrite Bool.andb_true_r in Hw4.
      set (s4 := advance T s3) in *.
      assert (Hm4 : message s4 = m3).
      { unfold s4. destruct (advance_timers T s3) as [_ ->]. exact Hm3. }
      unfold step. cbn [fst snd].
      assert (Ht5 : timers (advance T' s4) = []) by (now rewrite (advance_idle T' s4 Ht4)).
      assert (Hm5 : message (advance T' s4) = m3).
      { rewrite (advance_idle T' s4 Ht4). unfold set_now. cbn [message]. exact Hm4. }
      assert (Hr5 : answer_ok (fun updated =>
                       strict_eq_string (message (advance T' s4))
                                        (get_prop updated "message") = true) r)
        by (now rewrite Hm5).
      rewrite advance_idle_writes by (now apply resolve_settles).
      destruct (resolve_writes w r (advance T' s4)) as (Hw6 & _).
      rewrite Hw6, (advance_idle_writes T' s4 Ht4), Hw4.
      unfold written. now destruct (confirmed m3).
Qed.

(** The writes of a screen with exactly one timer: none before it is due,
    its own from then on. *)
Lemma one_timer_writes (s : Screen) (tm : Timer) :
  timers s = [tm] ->
  (forall T, (T < due tm)%N -> writes (advance T s) = writes s) /\
  (forall T, (due tm <= T)%N ->
     writes (advance T s) = writes s ++ [(t_phrase tm, t_message tm)]).
Proof.
  intros Ht. split; intros T HT;
    destruct (advance_one_timer T s tm true Ht) as [-> _]; unfold is_due; simpl.
  - replace (due tm <=? T)%N with false by (symmetry; now apply N.leb_gt).
    apply app_nil_r.
  - replace (due tm <=? T)%N with true by (symmetry; now apply N.leb_le).
    reflexivity.
Qed.

(** C4, as the code has it.  There is no saving state: an edit made while
    a write is in flight arms its own 2000 ms timer at once, and when that
    timer is due its write starts beside the one still outstanding.  What
    becomes of the edit when the outstanding write is answered before the
    timer is due depends on the answer.  A failure leaves the timer as it
    is, and so does an answer that is the very value held as the note: the
    edit is written 2000 ms after it was made.  A truthy note whose message
    differs from the edit makes the effect cancel the timer and arm a new
    one: the edit is written 2000 ms after the answer.  A falsy answer, or
    a note whose message is the edit, makes the effect cancel the timer and
    arm none: the edit is never written. *)
Theorem edit_while_saving_outcomes (s : Screen) (x : Write) (t : N) (m : string) :
  Inv s -> In x (inflight s) ->
  (now s <= t)%N -> Forall (fun tm => (t < due tm)%N) (timers s) ->
  truthy (note s) = true -> valid s = true ->
  m <> message s -> strict_eq_string m (get_prop (note s) "message") = false ->
  let s1 := step s (t, Edit m) in
  let own := {| tid := next_timer s; due := (t + 2000)%N;
                t_phrase := phrase s; t_message := m |} in
  timers s1 = [own] /\ inflight s1 = inflight s /\ writes s1 = writes s /\
  (forall T, (t + 2000 <= T)%N ->
     writes (advance T s1) = writes s ++ [(phrase s, m)] /\
     inflight (advance T s1) = inflight s ++ [write_for s m] /\
     2 <= length (inflight (advance T s1))) /\
  (forall r tr, (t <= tr)%N -> (tr < t + 2000)%N ->
     let s2 := step s1 (tr, Resolve (wid x) r) in
     let again := {| tid := next_timer s1; due := (tr + 2000)%N;
                     t_phrase := phrase s; t_message := m |} in
     let kept :=
       timers s2 = [own] /\
       (forall T, (T < t + 2000)%N -> writes (advance T s2) = writes s) /\
       (forall T, (t + 2000 <= T)%N ->
          writes (advance T s2) = writes s ++ [(phrase s, m)]) in
     match r with
     | inl e => kept
     | inr updated =>
         if same_value (note s) updated then kept
         else if truthy updated && negb (strict_eq_string m (get_prop updated "message"))
         then timers s2 = [again] /\
              (forall T, (T < tr + 2000)%N -> writes (advance T s2) = writes s) /\
              (forall T, (tr + 2000 <= T)%N ->
                 writes (advance T s2) = writes s ++ [(phrase s, m)])
         else timers s2 = [] /\ forall T, writes (advance T s2) = writes s
     end).
Proof.
  intros HI Hin Hnow Hquiet Hnote Hvalid Hne Hdiff. cbv zeta.
  destruct (step_edit_arms s t m HI Hnow Hquiet Hnote Hvalid Hne)
    as (HI1 & Hw1 & Hi1 & Hnw1 & Hnote1 & Hp1 & Hnow1 & Hm1 & Ht1).
  set (s1 := step s (t, Edit m)) in *.
  rewrite Hdiff in Ht1. unfold timer_for in Ht1.
  set (own := {| tid := next_timer s; due := (t + 2000)%N;
                 t_phrase := phrase s; t_message := m |}) in *.
  split; [exact Ht1 |]. split; [exact Hi1 |]. split; [exact Hw1 |]. split.
  - intros T HT.
    destruct (advance_writes T s1 _ Ht1) as (_ & Hw & Hi & _); [simpl; lia |].
    rewrite Hw, Hi, Hw1, Hi1, Hnw1. simpl.
    split; [reflexivity | split; [reflexivity |]].
    rewrite length_app. simpl. destruct (inflight s); [destruct Hin | simpl; lia].
  - intros r tr Htr Hearly.
    assert (Hadv : advance tr s1 = set_now tr s1).
    { rewrite (advance_waiting tr s1 _ Ht1) by (simpl; lia). rewrite N.max_r by lia.
      reflexivity. }
    assert (Hex : existsb (fun y => wid y =? wid x) (inflight (set_now tr s1)) = true).
    { apply existsb_exists. exists x. cbn [inflight set_now]. rewrite Hi1.
      split; [exact Hin | apply Nat.eqb_refl]. }
    unfold step. cbn [fst snd]. rewrite Hadv. unfold resolve. rewrite Hex. cbv zeta.
    set (rest := filter (fun y => negb (wid y =? wid x)) (inflight (set_now tr s1))).
    assert (Hkept : forall s2,
               timers s2 = [own] -> writes s2 = writes s ->
               timers s2 = [own] /\
               (forall T, (T < t + 2000)%N -> writes (advance T s2) = writes s) /\
               (forall T, (t + 2000 <= T)%N ->
                  writes (advance T s2) = writes s ++ [(phrase s, m)])).
    { intros s2 Ht2 Hw2. destruct (one_timer_writes s2 own Ht2) as [A B].
      rewrite Hw2 in A, B. split; [exact Ht2 |]. split; [exact A | exact B]. }
    destruct r as [e | updated].
    + apply Hkept; [exact Ht1 | exact Hw1].
    + unfold setNote. cbn [note set_inflight set_now]. rewrite Hnote1.
      destruct (same_value (note s) updated); [apply Hkept; [exact Ht1 | exact Hw1] |].
      set (y := set_note updated (set_inflight rest (set_now tr s1))).
      assert (Htr1 : tracked y) by exact (Inv_tracked s1 HI1).
      rewrite (rerender_tracked y Htr1).
      assert (Hearly' : returns_early y
                        = negb (truthy updated &&
                                negb (strict_eq_string m (get_prop updated "message")))).
      { unfold returns_early, y.
        cbn [note message set_note set_inflight set_now].
        change (valid (set_note updated (set_inflight rest (set_now tr s1))))
          with (valid s1).
        assert (Hv1 : valid s1 = true) by (unfold valid in *; now rewrite Hp1).
        rewrite Hv1, Hm1.
        destruct (truthy updated); destruct (strict_eq_string m (get_prop updated "message"));
          reflexivity. }
      rewrite Hearly'.
      destruct (truthy updated && negb (strict_eq_string m (get_prop updated "message")));
        cbn [negb].
      * assert (Ht2 : timers (set_loading None (arm 2000 (set_timers [] y)))
                      = [{| tid := next_timer s1; due := (tr + 2000)%N;
                            t_phrase := phrase s; t_message := m |}]).
        { unfold y. cbn [timers set_loading arm set_timers set_note set_inflight set_now
                          app next_timer now phrase message].
          now rewrite Hp1, Hm1. }
        destruct (one_timer_writes _ _ Ht2) as [A B]. cbn [due t_phrase t_message] in A, B.
        change (writes (set_loading None (arm 2000 (set_timers [] y)))) with (writes s1) in A, B.
        rewrite Hw1 in A, B.
        split; [exact Ht2 |]. split; [exact A | exact B].
      * split; [reflexivity |]. intros T.
        rewrite advance_idle_writes by reflexivity. exact Hw1.
Qed.

End Facts.

End AutosaveFacts.

(* ===================================================================== *)
(** ** The autosave effect on concrete schedules *)
(* ===================================================================== *)

Module AutosaveExamples.
Import Js Autosave AutosaveFacts Reference.
Local Open Scope list_scope.

(** Closed comparisons of times are decided by evaluation. *)
Ltac decide_order := vm_compute; first [reflexivity | discriminate].

(** The screens of the examples are screens [onLoad] leaves. *)
Example reference_screens_are_loaded :
  loaded "abc" hello 0 = Some opened /\
  loaded "abc" (JObj [("message", JStr "xyz")]) 0 = Some confirmed_xyz /\
  loaded "abc" (JObj [("message", JNull)]) 0 = Some (effect (holding "abc" (JObj [("message", JNull)]) "" 0)) /\
  loaded "abc" JNull 0 = None.
Proof. repeat split. Qed.

(** C3 on the loaded note [hello]: each of the three edits leaves exactly
    its own timer, and the one write, of [xyz], is issued at 4400. *)
Lemma coalesces_edits_witness :
  let s1 := step opened (10%N, Edit "x") in
  let s2 := step s1 (500%N, Edit "xy") in
  let s3 := step s2 (2400%N, Edit "xyz") in
  timers s1 = [{| tid := 1; due := 2010; t_phrase := "abc"; t_message := "x" |}] /\
  timers s2 = [{| tid := 2; due := 2500; t_phrase := "abc"; t_message := "xy" |}] /\
  timers s3 = [{| tid := 3; due := 4400; t_phrase := "abc"; t_message := "xyz" |}] /\
  writes (advance 4399 s3) = [] /\ writes (advance 4400 s3) = [("abc", "xyz")].
Proof.
  destruct (autosave_coalesces_edits opened 10 500 2400 "x" "xy" "xyz"
              (Inv_loaded "abc" hello "hello" 0) eq_refl eq_refl
              ltac:(decide_order) (Forall_nil _)
              ltac:(decide_order) ltac:(decide_order) ltac:(decide_order) ltac:(decide_order)
              ltac:(discriminate) ltac:(discriminate) ltac:(discriminate))
    as (_ & Ht1 & Ht2 & Ht3 & _ & _ & _ & _ & Hbefore & Hafter & _).
  split; [exact Ht1 |]. split; [exact Ht2 |]. split; [exact Ht3 |].
  split.
  - exact (Hbefore 4399%N ltac:(decide_order)).
  - exact (Hafter 4400%N ltac:(decide_order)).
Defined.

(** C3, the claim as stated fails on a screen whose note already has the
    message [xyz]: the edits [x] and [xy] arm their timers, the edit [xyz]
    cancels the timer of [xy] and arms none, since the message is the
    confirmed one again.  No timer is left, nothing is in flight, and
    nothing has been written when 2000 ms have passed, or later. *)
Lemma typing_the_confirmed_message_writes_nothing :
  let s2 := run [(10%N, Edit "x"); (500%N, Edit "xy")] confirmed_xyz in
  let s3 := run [(10%N, Edit "x"); (500%N, Edit "xy"); (2400%N, Edit "xyz")] confirmed_xyz in
  timers s2 = [{| tid := 2; due := 2500; t_phrase := "abc"; t_message := "xy" |}] /\
  timers s3 = [] /\ inflight s3 = [] /\
  writes (advance 4400 s3) = [] /\ writes (advance 100000 s3) = [].
Proof. repeat split. Qed.

(** Outside the echo of C3: when the write of [xyz] is answered by a note
    without that message, the effect finds the message on screen different
    from the confirmed one again and arms a new timer; a second write of
    [xyz] follows 2000 ms after the answer. *)
Example answer_without_echo_saves_again :
  let s3 := run [(10%N, Edit "x"); (500%N, Edit "xy"); (2400%N, Edit "xyz");
                 (5000%N, Resolve 0 (inr (JObj [])))] opened in
  writes (advance 6999 s3) = [("abc", "xyz")] /\
  writes (advance 7000 s3) = [("abc", "xyz"); ("abc", "xyz")].
Proof. split; reflexivity. Qed.

(** C4, the claim as stated fails: the write of [a] starts at 2000 and is
    not answered; the edit [ab] at 2100 arms a timer, and at 4100 its write
    starts as well.  Two autosave writes for the phrase [abc] are in
    flight. *)
Lemma two_autosave_writes_in_flight :
  inflight (advance 4100 (run [(0%N, Edit "a"); (2100%N, Edit "ab")] opened))
  = [{| wid := 0; w_phrase := "abc"; w_message := "a" |};
     {| wid := 1; w_phrase := "abc"; w_message := "ab" |}].
Proof. reflexivity. Qed.

(** C4 as amended, on the same schedule, the edit [ab] made at 2100 while
    the write of [a] is in flight.  Unanswered, or answered by a failure at
    3000, the write of [ab] starts at 4100; answered at 3000 by a note with
    the message [a], it starts at 5000 and not before; answered at 3000 by
    the JSON [null], the timer is cancelled and [ab] is never written. *)
Lemma edit_while_saving_witness :
  let s1 := step saving (2100%N, Edit "ab") in
  let failed := step s1 (3000%N, Resolve 0 (inl (JError "Network request failed"))) in
  let answered := step s1 (3000%N, Resolve 0 (inr (JObj [("message", JStr "a")]))) in
  let emptied := step s1 (3000%N, Resolve 0 (inr JNull)) in
  writes (advance 4100 s1) = [("abc", "a"); ("abc", "ab")] /\
  writes (advance 4100 failed) = [("abc", "a"); ("abc", "ab")] /\
  writes (advance 4999 answered) = [("abc", "a")] /\
  writes (advance 5000 answered) = [("abc", "a"); ("abc", "ab")] /\
  timers emptied = [] /\ writes (advance 100000 emptied) = [("abc", "a")].
Proof.
  assert (HI : Inv saving) by (apply Inv_advance, Inv_run, Inv_loaded).
  destruct (edit_while_saving_outcomes saving
              {| wid := 0; w_phrase := "abc"; w_message := "a" |} 2100 "ab" HI
              (or_introl eq_refl) ltac:(decide_order) (Forall_nil _)
              eq_refl eq_refl ltac:(discriminate) eq_refl)
    as (_ & _ & _ & Hfire & Hanswered).
  pose proof (Hanswered (inl (JError "Network request failed")) 3000%N
                ltac:(decide_order) ltac:(decide_order)) as (_ & _ & Hfailed).
  pose proof (Hanswered (inr (JObj [("message", JStr "a")])) 3000%N
                ltac:(decide_order) ltac:(decide_order)) as (_ & Hearly & Hlate).
  pose proof (Hanswered (inr JNull) 3000%N
                ltac:(decide_order) ltac:(decide_order)) as (Hnone & Hnever).
  split; [exact (proj1 (Hfire 4100%N ltac:(decide_order))) |].
  split; [exact (Hfailed 4100%N ltac:(decide_order)) |].
  split; [exact (Hearly 4999%N ltac:(decide_order)) |].
  split; [exact (Hlate 5000%N ltac:(decide_order)) |].
  split; [exact Hnone | exact (Hnever 100000%N)].
Defined.

(** C5: typing the confirmed message back cancels the pending timer and
    arms none; nothing is ever written. *)
Lemma edit_to_confirmed_witness :
  let s := run [(0%N, Edit "hello!")] opened in
  timers (setMessage "hello" s) = [] /\
  writes (advance 60000 (setMessage "hello" s)) = [].
Proof.
  pose (s := run [(0%N, Edit "hello!")] opened).
  assert (HI : Inv s) by (apply Inv_run, Inv_loaded).
  destruct (edit_to_confirmed_value_is_noop s "hello" eq_refl) as (_ & _ & _ & _ & Hquiet).
  destruct (Hquiet HI) as [Hnone Hnever].
  split; [exact Hnone | exact (Hnever 60000%N)].
Defined.

End AutosaveExamples.

(* ===================================================================== *)
(** ** Further facts about the client *)
(* ===================================================================== *)

Module ClientFacts.
Import Js Api Notions JsFacts.

(** *** [normalizePhrase] *)

Lemma length_append (a b : string) :
  String.length (a ++ b) = String.length a + String.length b.
Proof. induction a as [|c a IH]; simpl; [reflexivity | now rewrite IH]. Qed.

Lemma trimStart_split (s : string) :
  exists l, all_ws l = true /\ s = l ++ trimStart s.
Proof.
  induction s as [|c s [l [Hl Hs]]]; simpl.
  - exists "". auto.
  - destruct (is_ws c) eqn:Hc.
    + exists (String c l). simpl. rewrite Hc, Hl. split; [reflexivity | now rewrite <- Hs].
    + exists "". auto.
Qed.

Lemma trimEnd_split (s : string) :
  exists r, all_ws r = true /\ s = trimEnd s ++ r.
Proof.
  induction s as [|c s [r [Hr Hs]]]; simpl.
  - exists "". auto.
  - destruct (trimEnd s) as [|d t] eqn:Ht.
    + simpl in Hs. subst s. destruct (is_ws c) eqn:Hc.
      * exists (String c r). simpl. now rewrite Hc, Hr.
      * exists r. auto.
    + exists r. split; [exact Hr |]. simpl in *. congruence.
Qed.

Lemma trimEnd_last (s init : string) (c : ascii) :
  trimEnd s = init ++ String c "" -> is_ws c = false.
Proof.
  revert init. induction s as [|d s IH]; intros init; simpl.
  - destruct init; discriminate.
  - destruct (trimEnd s) as [|e t] eqn:Ht.
    + destruct (is_ws d) eqn:Hd.
      * destruct init; discriminate.
      * destruct init as [|x init]; simpl; intros Heq.
        -- now inversion Heq; subst.
        -- inversion Heq. destruct init; discriminate.
    + destruct init as [|x init]; simpl; intros Heq; [discriminate |].
      inversion Heq. eapply IH. eassumption.
Qed.

(** X1.  [normalizePhrase] removes whitespace at the two ends and nothing
    else: the phrase is its key with whitespace before and after, and the
    key neither starts nor ends with a whitespace character. *)
Theorem normalizePhrase_strips_only_the_ends (p : string) :
  (exists l r, all_ws l = true /\ all_ws r = true /\ p = l ++ normalizePhrase p ++ r) /\
  (forall c rest, normalizePhrase p = String c rest -> is_ws c = false) /\
  (forall init c, normalizePhrase p = init ++ String c "" -> is_ws c = false) /\
  String.length (normalizePhrase p) <= String.length p.
Proof.
  unfold normalizePhrase, trim.
  destruct (trimStart_split p) as [l [Hl Hp]].
  destruct (trimEnd_split (trimStart p)) as [r [Hr Hq]].
  assert (Hsplit : p = l ++ trimEnd (trimStart p) ++ r) by (now rewrite <- Hq).
  split; [now exists l, r |]. split; [| split].
  - intros c rest Heq.
    pose proof (trimEnd_head _ (trimStart_head p)) as Hhead.
    rewrite Heq in Hhead. exact Hhead.
  - intros init c. apply trimEnd_last.
  - rewrite Hsplit at 2. rewrite !length_append. lia.
Qed.

(** *** [nameGuess] *)

Lemma split_first_prefix (c : ascii) (s : string) :
  exists rest, s = split_first c s ++ rest.
Proof.
  induction s as [|d s [rest IH]]; simpl.
  - now exists "".
  - destruct (Ascii.eqb d c).
    + now exists (String d s).
    + exists rest. simpl. now rewrite <- IH.
Qed.

Lemma split_first_free (c : ascii) (s : string) : ~ occurs c (split_first c s).
Proof.
  unfold occurs. induction s as [|d s IH]; simpl; [tauto |].
  destruct (Ascii.eqb_spec d c) as [-> | Hne]; simpl; [tauto |].
  intros [Heq | Hin]; [congruence | tauto].
Qed.

Lemma split_last_suffix (c : ascii) (s : string) :
  exists before, s = before ++ split_last c s.
Proof.
  induction s as [|d s [before IH]]; simpl.
  - now exists "".
  - destruct (existsb (Ascii.eqb c) (list_ascii_of_string s)).
    + exists (String d before). simpl. now rewrite <- IH.
    + destruct (Ascii.eqb d c).
      * now exists (String d "").
      * now exists "".
Qed.

Lemma split_last_free (c : ascii) (s : string) : ~ occurs c (split_last c s).
Proof.
  unfold occurs. induction s as [|d s IH]; simpl; [tauto |].
  destruct (existsb (Ascii.eqb c) (list_ascii_of_string s)) eqn:Hex; [exact IH |].
  assert (Hfree : ~ In c (list_ascii_of_string s)).
  { intros Hin. apply Bool.not_true_iff_false in Hex. apply Hex.
    apply existsb_exists. exists c. split; [exact Hin | apply Ascii.eqb_refl]. }
  destruct (Ascii.eqb_spec d c) as [-> | Hne]; [exact Hfree |].
  simpl. intros [Heq | Hin]; [congruence | tauto].
Qed.

Lemma occurs_app (c : ascii) (a b : string) :
  occurs c (a ++ b) <-> occurs c a \/ occurs c b.
Proof.
  unfold occurs. induction a as [|x a IH]; simpl; [tauto |].
  rewrite IH. tauto.
Qed.

(** X2.  The file name derived from an image URL is never empty and holds
    no slash, question mark or hash; it is the placeholder [image] or a
    piece of the URL (the segment after the last slash of the URL cut at
    its first question mark and then at its first hash). *)
Theorem nameGuess_is_a_file_name (imageUrl : string) :
  nameGuess imageUrl <> "" /\
  ~ occurs "/" (nameGuess imageUrl) /\
  ~ occurs "?" (nameGuess imageUrl) /\
  ~ occurs "#" (nameGuess imageUrl) /\
  (nameGuess imageUrl = "image" \/ contains (nameGuess imageUrl) imageUrl).
Proof.
  unfold nameGuess.
  set (path := split_first "#" (split_first "?" imageUrl)).
  destruct (split_last_suffix "/" path) as [before Hpath].
  destruct (split_first_prefix "#" (split_first "?" imageUrl)) as [fragment Hfrag].
  destruct (split_first_prefix "?" imageUrl) as [query Hquery].
  fold path in Hfrag.
  assert (Hno_hash : ~ occurs "#" path) by apply split_first_free.
  assert (Hno_query : ~ occurs "?" path).
  { intros Hin. apply (split_first_free "?" imageUrl).
    rewrite Hfrag. apply occurs_app. now left. }
  destruct (split_last "/" path) as [|c rest] eqn:Hlast; simpl.
  - split; [discriminate |]. unfold occurs. simpl.
    repeat split; try (intros Hin; repeat destruct Hin as [Hin | Hin]; discriminate || tauto).
    now left.
  - rewrite <- Hlast in *. split; [rewrite Hlast; discriminate |].
    split; [apply split_last_free |].
    split; [intros Hin; apply Hno_query; rewrite Hpath; apply occurs_app; now right |].
    split; [intros Hin; apply Hno_hash; rewrite Hpath; apply occurs_app; now right |].
    right. exists before, (fragment ++ query).
    rewrite Hquery at 1. rewrite Hfrag at 1. rewrite Hpath at 1.
    now rewrite !append_assoc.
Qed.

(** *** Base64 *)

(** Goals about quotients and remainders of bytes. *)
Ltac byte_arith := zify; Z.to_euclidean_division_equations; lia.

Lemma sextet_value_sextet (n : N) : (n < 64)%N -> sextet_value (sextet n) = n.
Proof.
  intros Hn.
  assert (Hall : forallb (fun k => N.eqb (sextet_value (sextet (N.of_nat k))) (N.of_nat k))
                   (seq 0 64) = true) by (vm_compute; reflexivity).
  rewrite forallb_forall in Hall. specialize (Hall (N.to_nat n)).
  rewrite N2Nat.id in Hall. apply N.eqb_eq, Hall, in_seq. lia.
Qed.

Lemma sextet_not_padding (n : N) : (n < 64)%N -> Ascii.eqb (sextet n) "="%char = false.
Proof.
  intros Hn.
  assert (Hall : forallb (fun k => negb (Ascii.eqb (sextet (N.of_nat k)) "="%char))
                   (seq 0 64) = true) by (vm_compute; reflexivity).
  rewrite forallb_forall in Hall. specialize (Hall (N.to_nat n)).
  rewrite N2Nat.id in Hall. apply negb_true_iff, Hall, in_seq. lia.
Qed.

Lemma byte_of_to_N (b : byte) (n : N) : n = Byte.to_N b -> byte_of n = b.
Proof. intros ->. unfold byte_of. now rewrite Byte.of_to_N. Qed.

Lemma base64_decode_encode_upto (n : nat) (bytes : list byte) :
  length bytes <= n -> base64_decode (base64_encode bytes) = bytes.
Proof.
  revert bytes. induction n as [|n IH]; intros bytes Hlen.
  - destruct bytes; [reflexivity | simpl in Hlen; lia].
  - destruct bytes as [|a [|b [|c rest]]]; [reflexivity | | |].
    + pose proof (Byte.to_N_bounded a).
      cbn [base64_encode base64_decode].
      rewrite Ascii.eqb_refl.
      rewrite !sextet_value_sextet by byte_arith.
      f_equal. apply byte_of_to_N. byte_arith.
    + pose proof (Byte.to_N_bounded a). pose proof (Byte.to_N_bounded b).
      cbn [base64_encode base64_decode].
      rewrite (sextet_not_padding ((Byte.to_N b mod 16) * 4)) by byte_arith.
      rewrite Ascii.eqb_refl.
      rewrite !sextet_value_sextet by byte_arith.
      f_equal; [| f_equal]; apply byte_of_to_N; byte_arith.
    + pose proof (Byte.to_N_bounded a). pose proof (Byte.to_N_bounded b).
      pose proof (Byte.to_N_bounded c).
      cbn [base64_encode base64_decode].
      rewrite (sextet_not_padding ((Byte.to_N b mod 16) * 4 + Byte.to_N c / 64))
        by byte_arith.
      rewrite (sextet_not_padding (Byte.to_N c mod 64)) by byte_arith.
      rewrite !sextet_value_sextet by byte_arith.
      rewrite IH by (simpl in Hlen; lia).
      f_equal; [| f_equal; [| f_equal]]; apply byte_of_to_N; byte_arith.
Qed.

Lemma base64_decode_encode (bytes : list byte) :
  base64_decode (base64_encode bytes) = bytes.
Proof. now apply (base64_decode_encode_upto (length bytes)). Qed.

Lemma base64_length_upto (n : nat) (bytes : list byte) :
  length bytes <= n ->
  String.length (base64_encode bytes) = 4 * ((length bytes + 2) / 3).
Proof.
  revert bytes. induction n as [|n IH]; intros bytes Hlen.
  - destruct bytes; [reflexivity | simpl in Hlen; lia].
  - destruct bytes as [|a [|b [|c rest]]]; try reflexivity.
    cbn [base64_encode String.length length].
    rewrite IH by (simpl in Hlen; lia).
    replace (S (S (S (length rest))) + 2) with (length rest + 2 + 1 * 3) by lia.
    rewrite Nat.div_add by lia. lia.
Qed.

Lemma arrayBufferToBase64_encodes (buffer : list byte) :
  arrayBufferToBase64 buffer = base64_encode buffer.
Proof.
  unfold arrayBufferToBase64, btoa.
  rewrite Base64Facts.chunk_loop_appends. simpl.
  apply f_equal, Base64Facts.codes_of_fromCharCode.
Qed.

(** X3.  The base64 text of a buffer has four characters for every three
    bytes, the last group rounded up, and two buffers with the same text
    are the same buffer: nothing of the image is lost in the encoding. *)
Theorem arrayBufferToBase64_is_faithful (buffer other : list byte) :
  String.length (arrayBufferToBase64 buffer) = 4 * ((length buffer + 2) / 3) /\
  (arrayBufferToBase64 buffer = arrayBufferToBase64 other -> buffer = other).
Proof.
  rewrite !arrayBufferToBase64_encodes. split.
  - now apply (base64_length_upto (length buffer)).
  - intros Heq. apply (f_equal base64_decode) in Heq.
    now rewrite !base64_decode_encode in Heq.
Qed.

Section Operations.
Context {num : JsNumber} {P : Platform}.

(** *** [handleJson] *)

(** X4.  [handleJson] succeeds exactly when the status is in 200-299, and
    then a body that is not empty and parses as JSON is returned as it was
    parsed. *)
Theorem handleJson_succeeds_iff_ok (res : Response) :
  ((exists v, handleJson res = inr v) <-> ok res = true) /\
  (forall body v,
      ok res = true -> text res = inr body -> body <> "" ->
      JSON_parse body = Some v -> handleJson res = inr v).
Proof.
  unfold handleJson. split; [split |].
  - destruct (ok res); [reflexivity |]. simpl. intros [v Hv]. discriminate.
  - intros ->. simpl.
    destruct (text res) as [e | body]; simpl; [now eexists |].
    destruct (nonempty body); simpl; [| now eexists].
    destruct (JSON_parse body); now eexists.
  - intros body v -> -> Hne Hparse.
    destruct body; [congruence |]. simpl. now rewrite Hparse.
Qed.

(** *** One request per operation *)

Ltac run_call :=
  unfold call_at, json_call, read_request, write_request, delete_request,
    bind, try_catch, lift, ret, throw, do_fetch;
  match goal with
  | |- context [endpoints_note ?k] => destruct (endpoints_note k) as [urlErr | u]
  | |- context [endpoints_noteImage ?k] => destruct (endpoints_noteImage k) as [urlErr | u]
  end; simpl; [reflexivity |];
  match goal with
  | |- context [fetch ?req ?w] => destruct (fetch req w) as [[netErr | res] w']
  end; simpl; [reflexivity |];
  match goal with
  | |- context [handleJson ?r] => destruct (handleJson r); reflexivity
  end.

Lemma getNote_is_call (phrase : string) (s : St) :
  getNote phrase s = call_at (endpoints_note (normalizePhrase phrase)) read_request s.
Proof. unfold getNote; run_call. Qed.

Lemma createNote_is_call (phrase message : string) (s : St) :
  createNote phrase message s
  = call_at (endpoints_note (normalizePhrase phrase))
      (fun u => write_request POST u message) s.
Proof. unfold createNote; run_call. Qed.

Lemma saveNote_is_call (phrase message : string) (s : St) :
  saveNote phrase message s
  = call_at (endpoints_note (normalizePhrase phrase))
      (fun u => write_request PUT u message) s.
Proof. unfold saveNote; run_call. Qed.

Lemma updateNote_is_call (phrase message : string) (s : St) :
  updateNote phrase message s
  = call_at (endpoints_note (normalizePhrase phrase))
      (fun u => write_request PATCH u message) s.
Proof. unfold updateNote; run_call. Qed.

Lemma deleteImage_is_call (phrase : string) (s : St) :
  deleteImage phrase s
  = call_at (endpoints_noteImage (normalizePhrase phrase)) delete_request s.
Proof. unfold deleteImage; run_call. Qed.

(** X5.  Each of [getNote], [createNote], [saveNote], [updateNote] and
    [deleteImage] is one call: when the URL of the trimmed phrase can be
    built, exactly one request is sent (GET, POST, PUT, PATCH to the note,
    DELETE to its image; the writes carry the message as JSON), a
    rejection of the network reaches the caller as it is and a response
    goes through [handleJson]; when the URL cannot be built, nothing is
    sent. *)
Theorem operations_are_single_calls (phrase message : string) (s : St) :
  let key := normalizePhrase phrase in
  getNote phrase s = call_at (endpoints_note key) read_request s /\
  createNote phrase message s
  = call_at (endpoints_note key) (fun u => write_request POST u message) s /\
  saveNote phrase message s
  = call_at (endpoints_note key) (fun u => write_request PUT u message) s /\
  updateNote phrase message s
  = call_at (endpoints_note key) (fun u => write_request PATCH u message) s /\
  deleteImage phrase s = call_at (endpoints_noteImage key) delete_request s.
Proof.
  intros key. subst key.
  split; [apply getNote_is_call |].
  split; [apply createNote_is_call |].
  split; [apply saveNote_is_call |].
  split; [apply updateNote_is_call |].
  apply deleteImage_is_call.
Qed.

(** *** The requests of [getOrCreateNote] *)

Local Open Scope list_scope.

Lemma normalizePhrase_idempotent (phrase : string) :
  normalizePhrase (normalizePhrase phrase) = normalizePhrase phrase.
Proof. unfold normalizePhrase. apply trim_idempotent. Qed.

(** X6.  Whatever the server answers, [getOrCreateNote] sends to the URL
    of the note one of five sequences of requests and no other: the read
    alone; the read and the upsert; these and a final read; the read, the
    upsert and the create; these and a final read.  Both writes carry the
    default message.  A read that succeeds is followed by no request at
    all, and nothing is sent when the URL cannot be built. *)
Theorem getOrCreateNote_requests (phrase : string) (s : St) :
  let key := normalizePhrase phrase in
  let sent := log (snd (getOrCreateNote phrase s)) in
  match endpoints_note key with
  | inl _ => sent = log s
  | inr u =>
      let get := read_request u in
      let put := write_request PUT u DEFAULT_INIT_MESSAGE in
      let post := write_request POST u DEFAULT_INIT_MESSAGE in
      (sent = log s ++ [get] \/ sent = log s ++ [get; put] \/
       sent = log s ++ [get; put; get] \/ sent = log s ++ [get; put; post] \/
       sent = log s ++ [get; put; post; get]) /\
      (forall existing s1, getNote key s = (inr existing, s1) -> sent = log s ++ [get])
  end.
Proof.
  intros key sent. subst sent key.
  unfold getOrCreateNote, getNote, saveNote, createNote,
    try_catch, bind, lift, ret, throw, do_fetch.
  rewrite !normalizePhrase_idempotent.
  destruct (endpoints_note (normalizePhrase phrase)) as [urlErr | u]; simpl;
    [reflexivity |].
  unfold read_request, write_request.
  repeat match goal with
         | |- context [fetch ?req ?w] => destruct (fetch req w) as [[? | ?] ?]; simpl
         | |- context [handleJson ?r] => destruct (handleJson r) as [? | ?]; simpl
         | |- context [truthy ?v] => destruct (truthy v); simpl
         end;
    (split;
     [rewrite <- ?app_assoc; simpl; auto 6
     | intros ? ? Hread; first [discriminate Hread | reflexivity]]).
Qed.

(** X21.  When the first read fails and the write that follows (the
    upsert, or the create after a failed upsert) succeeds with a falsy
    value, [getOrCreateNote] ends with one more GET of the note: the
    outcome of that call, its failure included, is the outcome of
    [getOrCreateNote], and the value written is not returned. *)
Theorem getOrCreateNote_falsy_write_reads_again
    (phrase : string) (s s1 s2 : St) (e v : JsValue) :
  getNote (normalizePhrase phrase) s = (inl e, s1) ->
  fallback_write (normalizePhrase phrase) s1 v s2 ->
  truthy v = false ->
  getOrCreateNote phrase s
  = call_at (endpoints_note (normalizePhrase phrase)) read_request s2.
Proof.
  intros Hread Hwrite Hv.
  rewrite (ApiFacts.getOrCreateNote_final_read phrase s s1 s2 e v Hread Hwrite Hv).
  rewrite getNote_is_call. now rewrite normalizePhrase_idempotent.
Qed.

(** *** The image operations *)

(** X7.  [getImage] sends one GET without headers to the image URL.  A
    response outside 200-299 fails with the status and the status text
    alone, whatever the body says.  A response in 200-299 gives the data
    URL [data:<type>;base64,<base64 of the bytes>] and the type; the type
    is that of the response, or [application/octet-stream] when the header
    is missing or empty, so it is never empty. *)
Theorem getImage_outcome (phrase u : string) (s : St) (res : Response) (w' : World) :
  endpoints_noteImage (normalizePhrase phrase) = inr u ->
  fetch (image_request u) (world s) = (inr res, w') ->
  let s' := {| world := w'; log := log s ++ [image_request u] |} in
  (ok res = false -> getImage phrase s = (inl (JError (status_line res)), s')) /\
  (forall bytes,
      ok res = true -> arrayBuffer res = inr bytes ->
      getImage phrase s = (inr (image_result (contentType_of res) bytes), s')) /\
  (forall e,
      ok res = true -> arrayBuffer res = inl e -> getImage phrase s = (inl e, s')) /\
  contentType_of res <> "".
Proof.
  intros Hurl Hfetch s'. subst s'.
  unfold getImage, bind, lift, ret, throw, do_fetch. rewrite Hurl. simpl.
  unfold image_request in Hfetch. rewrite Hfetch. simpl.
  split; [intros ->; reflexivity |].
  split; [intros bytes -> ->; simpl; unfold image_result;
          now rewrite arrayBufferToBase64_encodes |].
  split; [intros e -> ->; reflexivity |].
  unfold contentType_of. destruct (content_type res) as [c |]; [| discriminate].
  destruct c; simpl; discriminate.
Qed.

(** X8.  [uploadImageFromUrl] uploads nothing when it cannot get the
    image: if the GET of the image URL is rejected, or answered outside
    200-299 (the failure is then [Failed to fetch image: <status>]), or its
    body cannot be read, the GET is the only request sent and the note's
    image is not touched. *)
Theorem uploadImageFromUrl_needs_the_image
    (phrase imageUrl : string) (s : St) (r : JsValue + Response) (w' : World) :
  fetch (image_request imageUrl) (world s) = (r, w') ->
  let s' := {| world := w'; log := log s ++ [image_request imageUrl] |} in
  match r with
  | inl e => uploadImageFromUrl phrase imageUrl s = (inl e, s')
  | inr imgRes =>
      (ok imgRes = false ->
       uploadImageFromUrl phrase imageUrl s
       = (inl (JError ("Failed to fetch image: " ++ decimal (status imgRes))), s')) /\
      (forall e, ok imgRes = true -> blob imgRes = inl e ->
                 uploadImageFromUrl phrase imageUrl s = (inl e, s'))
  end.
Proof.
  intros Hfetch s'. subst s'.
  unfold uploadImageFromUrl, bind, lift, ret, throw, do_fetch.
  unfold image_request in Hfetch. rewrite Hfetch.
  destruct r as [e | imgRes]; simpl; [reflexivity |].
  split; [intros ->; reflexivity | intros e -> ->; reflexivity].
Qed.

(** X9.  When the image is fetched, [uploadImageFromUrl] sends, after the
    GET of the image URL, one POST to the image URL of the note: a form
    whose field [image] holds the bytes and the type just fetched under
    the file name derived from the image URL; the outcome is that of this
    call.  If the URL of the note cannot be built, the POST is not
    sent. *)
Theorem uploadImageFromUrl_uploads_what_it_fetched
    (phrase imageUrl type : string) (s : St) (imgRes : Response) (w' : World)
    (bytes : list byte) :
  fetch (image_request imageUrl) (world s) = (inr imgRes, w') ->
  ok imgRes = true -> blob imgRes = inr (bytes, type) ->
  let s' := {| world := w'; log := log s ++ [image_request imageUrl] |} in
  uploadImageFromUrl phrase imageUrl s
  = call_at (endpoints_noteImage (normalizePhrase phrase))
      (fun u => upload_request u bytes type (nameGuess imageUrl)) s'.
Proof.
  intros Hfetch Hok Hblob s'. subst s'.
  unfold uploadImageFromUrl, bind, lift, ret, throw, do_fetch.
  unfold image_request in Hfetch. rewrite Hfetch. simpl. rewrite Hok, Hblob. simpl.
  unfold call_at, json_call, upload_request, throw.
  destruct (endpoints_noteImage (normalizePhrase phrase)) as [urlErr | u]; simpl;
    [reflexivity |].
  match goal with
  | |- context [fetch ?req ?w] => destruct (fetch req w) as [[netErr | res] w2]
  end; simpl; [reflexivity |].
  destruct (handleJson res); reflexivity.
Qed.

End Operations.

End ClientFacts.

(* ===================================================================== *)
(** ** The handlers of the screen *)
(* ===================================================================== *)

Module HandlersFacts.
Import Js Api Notions Handlers.
Local Open Scope list_scope.

Section Facts.
Context {num : JsNumber} {P : Platform} {E : Engine}.

Local Arguments valid : simpl never.

Lemma valid_setLoading (k : option string) (v : View) : valid (setLoading k v) = valid v.
Proof. reflexivity. Qed.

(** Runs a handler up to its first test or request. *)
Ltac run_handler :=
  unfold onLoad, onGetImage, onUploadImage, onDeleteImage, withLoad, invalid_phrase,
    then_h, render, api, update, step_of, unit_h, raise, on_view; simpl;
  rewrite ?valid_setLoading.

Lemma error_text_of_error (m : string) : error_text (JError m) = inr (JStr m).
Proof. reflexivity. Qed.

Lemma app_nil_end_alerts (v : View) : alerts v = alerts v ++ [].
Proof. now rewrite app_nil_r. Qed.

(** X10.  [withLoad] always ends with nothing shown as loading.  A failure
    of the wrapped function does not escape when it has a message or can be
    converted to a string: it is shown in an alert titled [Error] (an
    [Error] object by its message) and [withLoad] ends normally. *)
Theorem withLoad_settles (key : string) (fn : H unit) (u : Ui) :
  let started := on_view (setLoading (Some key)) u in
  loading (view (snd (withLoad key fn u))) = None /\
  (forall u1, fn started = (inr tt, u1) ->
              withLoad key fn u = (inr tt, on_view (setLoading None) u1)) /\
  (forall e text u1,
      fn started = (inl e, u1) -> error_text e = inr text ->
      withLoad key fn u
      = (inr tt, on_view (setLoading None) (on_view (alert "Error" text) u1))) /\
  (forall m, error_text (JError m) = inr (JStr m)).
Proof.
  intros started. subst started. unfold withLoad.
  split; [| split; [| split]].
  - destruct (fn _) as [[e | a] u1]; [destruct (error_text e) |]; reflexivity.
  - intros u1 ->. reflexivity.
  - intros e text u1 -> ->. reflexivity.
  - reflexivity.
Qed.

(** X11.  With a phrase shorter than three code units none of the four
    handlers sends a request: each shows the alert [Invalid] and leaves the
    note, the message and the image as they were.  [onUploadImage] does the
    same with the alert [Missing] when the phrase is valid and the URL
    input is empty. *)
Theorem handlers_check_before_any_request (u : Ui) :
  let invalid := JStr "Passphrase must be at least 3 characters." in
  (valid (view u) = false ->
   only_alerts "Invalid" invalid u (onLoad u) /\
   only_alerts "Invalid" invalid u (onGetImage u) /\
   only_alerts "Invalid" invalid u (onUploadImage u) /\
   only_alerts "Invalid" invalid u (onDeleteImage u)) /\
  (valid (view u) = true -> imageUrlInput (view u) = "" ->
   only_alerts "Missing" (JStr "Enter a direct image URL to upload.") u (onUploadImage u)).
Proof.
  intros invalid. subst invalid. unfold only_alerts, same_content. split.
  - intros Hinvalid.
    repeat split; run_handler; rewrite Hinvalid; reflexivity.
  - intros Hvalid Hempty.
    repeat split; run_handler; rewrite Hvalid, Hempty; reflexivity.
Qed.

(** X12.  [onLoad] with a valid phrase resolves the note of the phrase
    with [getOrCreateNote].  On success the note is stored, the message
    becomes the note's message (the empty string when it has none) and the
    image shown is dropped.  On a failure that can be shown, the note, the
    message and the image stay as they were and the failure is alerted.
    When the resolved value is [null] or [undefined], it has already
    replaced the note when reading its message fails. *)
Theorem onLoad_outcome (u : Ui) :
  valid (view u) = true ->
  (forall n st,
      getOrCreateNote (phrase (view u)) (net u) = (inr n, st) -> nullish n = false ->
      onLoad u
      = (inr tt,
         {| view := settled (view u) n (nullish_or (get_prop n "message") (JStr "")) JNull [];
            net := st |})) /\
  (forall e text st,
      getOrCreateNote (phrase (view u)) (net u) = (inl e, st) -> error_text e = inr text ->
      onLoad u
      = (inr tt,
         {| view := settled (view u) (note (view u)) (message (view u))
                      (imageDataUrl (view u)) [("Error", text)];
            net := st |})) /\
  (forall n st,
      getOrCreateNote (phrase (view u)) (net u) = (inr n, st) -> nullish n = true ->
      note (view (snd (onLoad u))) = n /\
      message (view (snd (onLoad u))) = message (view u) /\
      imageDataUrl (view (snd (onLoad u))) = imageDataUrl (view u)).
Proof.
  intros Hvalid. split; [| split].
  - intros n st Hrun Hn. run_handler. rewrite Hvalid. simpl.
    rewrite Hrun. simpl. unfold property. rewrite Hn. simpl.
    unfold settled. now rewrite <- app_nil_end_alerts.
  - intros e text st Hrun Htext. run_handler. rewrite Hvalid. simpl.
    rewrite Hrun. simpl. rewrite Htext. reflexivity.
  - intros n st Hrun Hn. run_handler. rewrite Hvalid. simpl.
    rewrite Hrun. simpl. unfold property. rewrite Hn. simpl.
    destruct (error_text (null_access n "message")); simpl; auto.
Qed.

Lemma getImage_result (p : string) (s s' : St) (v : JsValue) :
  getImage p s = (inr v, s') ->
  exists contentType bytes, v = image_result contentType bytes.
Proof.
  unfold getImage, bind, lift, ret, throw, do_fetch.
  destruct (endpoints_noteImage (normalizePhrase p)) as [urlErr | url]; simpl;
    [discriminate |].
  match goal with
  | |- context [fetch ?req ?w] => destruct (fetch req w) as [[netErr | res] w']
  end; simpl; [discriminate |].
  destruct (ok res); simpl; [| discriminate].
  destruct (arrayBuffer res) as [e | bytes]; simpl; [discriminate |].
  intros Hrun. inversion Hrun; subst.
  exists (contentType_of res), bytes. unfold image_result.
  now rewrite ClientFacts.arrayBufferToBase64_encodes.
Qed.

(** X13.  [onGetImage] with a valid phrase shows the [dataUrl] of the
    value [getImage] returns, which is the data URL of the content type and
    the bytes fetched; when [getImage] fails the image shown before stays
    and the failure is alerted.  The note and the message are not touched
    either way. *)
Theorem onGetImage_outcome (u : Ui) :
  valid (view u) = true ->
  (forall v st,
      getImage (phrase (view u)) (net u) = (inr v, st) ->
      onGetImage u
      = (inr tt,
         {| view := settled (view u) (note (view u)) (message (view u))
                      (get_prop v "dataUrl") [];
            net := st |}) /\
      exists contentType bytes,
        v = image_result contentType bytes /\
        get_prop v "dataUrl"
        = JStr ("data:" ++ contentType ++ ";base64," ++ base64_encode bytes)) /\
  (forall e text st,
      getImage (phrase (view u)) (net u) = (inl e, st) -> error_text e = inr text ->
      onGetImage u
      = (inr tt,
         {| view := settled (view u) (note (view u)) (message (view u))
                      (imageDataUrl (view u)) [("Error", text)];
            net := st |})).
Proof.
  intros Hvalid. split.
  - intros v st Hrun.
    destruct (getImage_result _ _ _ _ Hrun) as (contentType & bytes & Hv).
    split; [| exists contentType, bytes; split; [exact Hv | now rewrite Hv]].
    subst v.
    run_handler. rewrite Hvalid. simpl. rewrite Hrun. simpl.
    unfold settled. now rewrite <- app_nil_end_alerts.
  - intros e text st Hrun Htext.
    run_handler. rewrite Hvalid. simpl. rewrite Hrun. simpl. rewrite Htext. reflexivity.
Qed.

(** X14.  [onDeleteImage] with a valid phrase deletes first and reads the
    note only after the delete has succeeded.  When the delete fails
    nothing changes but the alert.  When the delete succeeds the image
    shown is dropped, and the note is replaced by what [getNote] returns;
    if that read fails, the note stays as it was before the delete. *)
Theorem onDeleteImage_outcome (u : Ui) :
  valid (view u) = true ->
  (forall e text st,
      deleteImage (phrase (view u)) (net u) = (inl e, st) -> error_text e = inr text ->
      onDeleteImage u
      = (inr tt,
         {| view := settled (view u) (note (view u)) (message (view u))
                      (imageDataUrl (view u)) [("Error", text)];
            net := st |})) /\
  (forall d st1,
      deleteImage (phrase (view u)) (net u) = (inr d, st1) ->
      (forall n st2,
          getNote (phrase (view u)) st1 = (inr n, st2) ->
          onDeleteImage u
          = (inr tt, {| view := settled (view u) n (message (view u)) JNull []; net := st2 |})) /\
      (forall e text st2,
          getNote (phrase (view u)) st1 = (inl e, st2) -> error_text e = inr text ->
          onDeleteImage u
          = (inr tt,
             {| view := settled (view u) (note (view u)) (message (view u)) JNull
                          [("Error", text)];
                net := st2 |}))).
Proof.
  intros Hvalid. split.
  - intros e text st Hrun Htext.
    run_handler. rewrite Hvalid. simpl. rewrite Hrun. simpl. rewrite Htext. reflexivity.
  - intros d st1 Hdelete. split.
    + intros n st2 Hread.
      run_handler. rewrite Hvalid. simpl. rewrite Hdelete. simpl. rewrite Hread. simpl.
      unfold settled. now rewrite <- app_nil_end_alerts.
    + intros e text st2 Hread Htext.
      run_handler. rewrite Hvalid. simpl. rewrite Hdelete. simpl. rewrite Hread. simpl.
      rewrite Htext. reflexivity.
Qed.

(** X15.  [onUploadImage] with a valid phrase and a URL in the input
    uploads with [uploadImageFromUrl].  When that fails nothing changes but
    the alert.  When it returns the stored image's file name and content
    type, the alert [Uploaded] shows [<fileName> (<contentType>)], the
    image shown is dropped and the note is read again with [getNote]: the
    note read replaces the note, and if the read fails the note stays and
    the failure is alerted after [Uploaded]. *)
Theorem onUploadImage_outcome (u : Ui) :
  valid (view u) = true -> imageUrlInput (view u) <> "" ->
  (forall e text st,
      uploadImageFromUrl (phrase (view u)) (imageUrlInput (view u)) (net u) = (inl e, st) ->
      error_text e = inr text ->
      onUploadImage u
      = (inr tt,
         {| view := settled (view u) (note (view u)) (message (view u))
                      (imageDataUrl (view u)) [("Error", text)];
            net := st |})) /\
  (forall info fileName contentType st1,
      uploadImageFromUrl (phrase (view u)) (imageUrlInput (view u)) (net u) = (inr info, st1) ->
      get_prop info "fileName" = JStr fileName ->
      get_prop info "contentType" = JStr contentType ->
      let uploaded := ("Uploaded", JStr (fileName ++ " (" ++ contentType ++ ")")) in
      (forall n st2,
          getNote (phrase (view u)) st1 = (inr n, st2) ->
          onUploadImage u
          = (inr tt,
             {| view := settled (view u) n (message (view u)) JNull [uploaded];
                net := st2 |})) /\
      (forall e text st2,
          getNote (phrase (view u)) st1 = (inl e, st2) -> error_text e = inr text ->
          onUploadImage u
          = (inr tt,
             {| view := settled (view u) (note (view u)) (message (view u)) JNull
                          [uploaded; ("Error", text)];
                net := st2 |}))).
Proof.
  intros Hvalid Hurl.
  assert (Hinput : nonempty (imageUrlInput (view u)) = true)
    by (destruct (imageUrlInput (view u)); [congruence | reflexivity]).
  split.
  - intros e text st Hrun Htext.
    run_handler. rewrite Hvalid, Hinput. simpl. rewrite Hrun. simpl. rewrite Htext.
    reflexivity.
  - intros info fileName contentType st1 Hrun Hname Htype uploaded. subst uploaded.
    assert (Hinfo : nullish info = false)
      by (destruct info; simpl in Hname; try discriminate; reflexivity).
    split.
    + intros n st2 Hread.
      run_handler. rewrite Hvalid, Hinput. simpl. rewrite Hrun. simpl.
      unfold property, to_text. rewrite Hinfo, Hname, Htype. simpl.
      rewrite Hread. reflexivity.
    + intros e text st2 Hread Htext.
      run_handler. rewrite Hvalid, Hinput. simpl. rewrite Hrun. simpl.
      unfold property, to_text. rewrite Hinfo, Hname, Htype. simpl.
      rewrite Hread. simpl. rewrite Htext.
      unfold settled, setLoading, alert, setImageDataUrl. simpl.
      now rewrite <- app_assoc.
Qed.

Lemma onLoad_requests (u : Ui) :
  valid (view u) = true ->
  net (snd (onLoad u)) = snd (getOrCreateNote (phrase (view u)) (net u)).
Proof.
  intros Hvalid. run_handler. rewrite Hvalid. simpl.
  destruct (getOrCreateNote (phrase (view u)) (net u)) as [[e | n] st]; simpl.
  - now destruct (error_text e).
  - unfold property. destruct (nullish n); simpl; [| reflexivity].
    now destruct (error_text (null_access n "message")).
Qed.

(** X16.  The length check of the screen is on the phrase as typed, the
    key is the trimmed phrase: a phrase of three or more whitespace
    characters is valid, and [onLoad] then resolves the note of the empty
    key. *)
Theorem onLoad_checks_the_untrimmed_phrase (u : Ui) :
  all_ws (phrase (view u)) = true -> 3 <= String.length (phrase (view u)) ->
  valid (view u) = true /\
  normalizePhrase (phrase (view u)) = "" /\
  net (snd (onLoad u)) = snd (getOrCreateNote "" (net u)).
Proof.
  intros Hws Hlen.
  assert (Hvalid : valid (view u) = true) by (unfold valid; now apply Nat.leb_le).
  assert (Hkey : normalizePhrase (phrase (view u)) = "").
  { unfold normalizePhrase, trim. now rewrite JsFacts.trimStart_all_ws. }
  split; [exact Hvalid | split; [exact Hkey |]].
  rewrite (onLoad_requests u Hvalid).
  assert (Hsame : getOrCreateNote (phrase (view u)) = getOrCreateNote "")
    by (apply (ApiFacts.same_key_same_operations (phrase (view u)) ""); now rewrite Hkey).
  now rewrite Hsame.
Qed.

End Facts.

End HandlersFacts.

(* ===================================================================== *)
(** ** Further facts about the autosave effect *)
(* ===================================================================== *)

Module AutosaveMore.
Import Js Autosave AutosaveFacts.
Local Open Scope list_scope.
Local Open Scope nat_scope.

Section Facts.
Context {num : JsNumber}.

Lemma advance_phrase (T : N) (s : Screen) : phrase (advance T s) = phrase s.
Proof.
  unfold advance. simpl.
  now destruct (fire_all (filter (is_due T) (timers s))
                  (set_timers (filter (fun tm => negb (is_due T tm)) (timers s)) s))
    as (_ & -> & _).
Qed.

Lemma step_phrase (s : Screen) (te : N * Event) : phrase (step s te) = phrase s.
Proof.
  destruct te as [t ev]. unfold step. cbn [fst snd]. destruct ev as [m | w r].
  - unfold setMessage. destruct (String.eqb m (message (advance t s))).
    + apply advance_phrase.
    + destruct (rerender_frame (set_message m (advance t s))) as (_ & _ & _ & _ & Hp & _).
      rewrite Hp. simpl. apply advance_phrase.
  - destruct (resolve_writes w r (advance t s)) as (_ & Hp & _).
    rewrite Hp. apply advance_phrase.
Qed.

Lemma run_phrase (events : list (N * Event)) (s : Screen) :
  phrase (run events s) = phrase s.
Proof.
  revert s. induction events as [|te events IH]; intros s; [reflexivity |].
  change (run (te :: events) s) with (run events (step s te)).
  rewrite IH. apply step_phrase.
Qed.

(** A render whose effect returns early, from a screen without timers. *)
Lemma rerender_early (s : Screen) :
  timers s = [] -> returns_early s = true ->
  timers (rerender s) = [] /\ writes (rerender s) = writes s /\
  phrase (rerender s) = phrase s /\ note (rerender s) = note s.
Proof.
  intros Ht He. rewrite rerender_tracked by (left; exact Ht). rewrite He.
  simpl. auto.
Qed.

Lemma returns_early_quiet (s : Screen) :
  truthy (note s) = false \/ valid s = false -> returns_early s = true.
Proof.
  unfold returns_early. intros [H | H]; rewrite H; simpl; [reflexivity |].
  now destruct (truthy (note s)).
Qed.

Lemma step_edit_quiet (t : N) (m : string) (s : Screen) :
  timers s = [] -> truthy (note s) = false \/ valid s = false ->
  let s' := step s (t, Edit m) in
  timers s' = [] /\ writes s' = writes s /\ phrase s' = phrase s /\ note s' = note s.
Proof.
  intros Ht Hq. unfold step. cbn [fst snd]. rewrite (advance_idle t s Ht).
  unfold setMessage. cbn [message set_now].
  destruct (String.eqb m (message s)); [simpl; auto |].
  destruct (rerender_early (set_message m (set_now (N.max (now s) t) s))) as (A & B & C & D).
  - exact Ht.
  - apply returns_early_quiet. exact Hq.
  - rewrite A, B, C, D. simpl. auto.
Qed.

Lemma step_resolve_invalid (t : N) (w : nat) (r : JsValue + JsValue) (s : Screen) :
  timers s = [] -> valid s = false ->
  let s' := step s (t, Resolve w r) in
  timers s' = [] /\ writes s' = writes s /\ phrase s' = phrase s.
Proof.
  intros Ht Hv. unfold step. cbn [fst snd]. rewrite (advance_idle t s Ht).
  unfold resolve. cbn [inflight set_now].
  destruct (existsb (fun x => wid x =? w) (inflight s)); [| simpl; auto].
  destruct r as [e | updated]; [simpl; auto |].
  unfold setNote. cbn [note set_inflight set_now].
  destruct (same_value (note s) updated); [simpl; auto |].
  match goal with |- context [rerender ?x] =>
    destruct (rerender_early x) as (A & B & C & _) end.
  - exact Ht.
  - apply returns_early_quiet. right. exact Hv.
  - simpl. rewrite A, B, C. simpl. auto.
Qed.

Lemma run_app (a b : list (N * Event)) (s : Screen) :
  run (a ++ b) s = run b (run a s).
Proof. apply fold_left_app. Qed.

Lemma shown_string (n : JsValue) (m : string) :
  get_prop n "message" = JStr m -> shown n = Some m.
Proof.
  intros Hm. destruct n; try (simpl in Hm; discriminate); unfold shown; now rewrite Hm.
Qed.

Lemma shown_missing (n : JsValue) :
  truthy n = true ->
  get_prop n "message" = JUndefined \/ get_prop n "message" = JNull ->
  shown n = Some "".
Proof.
  intros Hn Hm. destruct n; simpl in Hn; try discriminate; unfold shown;
    destruct Hm as [-> | ->]; reflexivity.
Qed.

Lemma loaded_shown (p : string) (n : JsValue) (m : string) (t0 : N) :
  shown n = Some m -> loaded p n t0 = Some (effect (holding p n m t0)).
Proof. intros H. unfold loaded, stored. now rewrite H. Qed.

(** X17.  In every state reached by edits and responses from a screen on
    which [onLoad] has stored a note (whose message is a string, missing or
    null), at most one timer is armed.  When one is armed it is the one
    [saveTimeout] holds, it carries the phrase and the message now on
    screen, the phrase has at least three code units, a note is loaded and
    the message differs from the message of that note. *)
Theorem autosave_keeps_one_timer (p : string) (n : JsValue) (t0 : N) (s0 : Screen)
    (events : list (N * Event)) :
  loaded p n t0 = Some s0 ->
  let s := run events s0 in
  length (timers s) <= 1 /\
  forall tm, In tm (timers s) ->
    saveTimeout s = Some (tid tm) /\ t_phrase tm = p /\ t_message tm = message s /\
    3 <= String.length p /\ truthy (note s) = true /\
    strict_eq_string (message s) (get_prop (note s) "message") = false.
Proof.
  intros Hload s.
  assert (Hp : phrase s = p).
  { unfold s. rewrite run_phrase. unfold loaded, stored in Hload.
    destruct (shown n) as [m |]; simpl in Hload; [| discriminate].
    inversion Hload.
    now destruct (effect_frame (holding p n m t0)) as (_ & _ & _ & _ & -> & _). }
  destruct (Inv_run events _ (Inv_of_loaded p n t0 s0 Hload))
    as (_ & _ & [Ht | (tm & Hpend)]);
    fold s in Ht || fold s in Hpend.
  - rewrite Ht. simpl. split; [lia | intros tm []].
  - destruct Hpend as (Ht & Hs & _ & _ & _ & Hm & Hph & Hn & Hv & Hd).
    rewrite Ht. simpl. split; [lia |].
    intros tm' [<- | []].
    unfold valid in Hv. rewrite Hp in Hv, Hph. apply Nat.leb_le in Hv. auto 7.
Qed.

(** X18.  When a write in flight fails, the failure is shown, nothing is
    shown as loading any more, the note, the message and the timers stay as
    they were, and the failed write is not issued again: at every later
    time the writes issued are those that would have been issued anyway. *)
Theorem failed_autosave_is_not_retried (s : Screen) (x : Write) (e : JsValue) :
  In x (inflight s) ->
  let s' := resolve (wid x) (inl e) s in
  alerts s' = alerts s ++ [e] /\ loading s' = None /\
  note s' = note s /\ message s' = message s /\ timers s' = timers s /\
  Forall (fun y => wid y <> wid x) (inflight s') /\
  forall T, writes (advance T s') = writes (advance T s).
Proof.
  intros Hin s'.
  assert (Hex : existsb (fun y => wid y =? wid x) (inflight s) = true).
  { apply existsb_exists. exists x. split; [exact Hin | apply Nat.eqb_refl]. }
  unfold s', resolve. rewrite Hex. cbv zeta.
  split; [reflexivity |]. split; [reflexivity |]. split; [reflexivity |].
  split; [reflexivity |]. split; [reflexivity |]. split.
  - apply Forall_forall. intros y Hy. cbn [inflight set_loading push_alert set_inflight] in Hy.
    apply filter_In in Hy. destruct Hy as [_ Hy].
    apply Bool.negb_true_iff in Hy. now apply Nat.eqb_neq in Hy.
  - intros T. rewrite !advance_writes_due. reflexivity.
Qed.

(** X19.  From a screen without timers, no autosave is ever issued while
    the phrase is shorter than three code units, whatever is typed and
    whatever responses arrive; and none is issued by typing alone while no
    note is loaded. *)
Theorem no_autosave_without_note_or_valid_phrase (s : Screen) :
  timers s = [] ->
  (valid s = false ->
   forall events T, timers (run events s) = [] /\
                    writes (advance T (run events s)) = writes s) /\
  (truthy (note s) = false ->
   forall (edits : list (N * string)) T,
     let s' := run (map (fun e => (fst e, Edit (snd e))) edits) s in
     timers s' = [] /\ note s' = note s /\ writes (advance T s') = writes s).
Proof.
  intros Ht. split.
  - intros Hv events. revert s Ht Hv.
    induction events as [|[t ev] events IH]; intros s Ht Hv T.
    + simpl. split; [exact Ht | now apply advance_idle_writes].
    + change (run ((t, ev) :: events) s) with (run events (step s (t, ev))).
      assert (Hstep : timers (step s (t, ev)) = [] /\ writes (step s (t, ev)) = writes s /\
                      phrase (step s (t, ev)) = phrase s).
      { destruct ev as [m | w r].
        - destruct (step_edit_quiet t m s Ht (or_intror Hv)) as (A & B & C & _). auto.
        - exact (step_resolve_invalid t w r s Ht Hv). }
      destruct Hstep as (A & B & C).
      destruct (IH (step s (t, ev)) A) with (T := T) as (D & E).
      * unfold valid in *. now rewrite C.
      * split; [exact D | now rewrite E].
  - intros Hn edits. revert s Ht Hn.
    induction edits as [|[t m] edits IH]; intros s Ht Hn T.
    + simpl. split; [exact Ht |]. split; [reflexivity | now apply advance_idle_writes].
    + cbn [map fst snd].
      change (run ((t, Edit m) :: ?l) s) with (run l (step s (t, Edit m))).
      destruct (step_edit_quiet t m s Ht (or_introl Hn)) as (A & B & _ & D).
      destruct (IH (step s (t, Edit m)) A) with (T := T) as (F & G & I).
      * now rewrite D.
      * cbv zeta. rewrite F, G, I, B, D. auto.
Qed.

(** X20.  When a write in flight is answered with a note whose [message]
    is not the message on screen, that note is stored and, with a valid
    phrase and no timer armed, a new timer is armed for 2000 ms after the
    answer: when it is due the message on screen is written again. *)
Theorem unechoed_answer_saves_again (s : Screen) (x : Write)
    (fields : list (string * JsValue)) :
  timers s = [] -> In x (inflight s) -> valid s = true ->
  strict_eq_string (message s) (get_prop (JObj fields) "message") = false ->
  let s' := resolve (wid x) (inr (JObj fields)) s in
  note s' = JObj fields /\
  timers s' = [{| tid := next_timer s; due := (now s + 2000)%N;
                  t_phrase := phrase s; t_message := message s |}] /\
  (forall T, (T < now s + 2000)%N -> writes (advance T s') = writes s) /\
  (forall T, (now s + 2000 <= T)%N ->
     writes (advance T s') = writes s ++ [(phrase s, message s)]).
Proof.
  intros Ht Hin Hv Hd s'.
  assert (Hex : existsb (fun y => wid y =? wid x) (inflight s) = true).
  { apply existsb_exists. exists x. split; [exact Hin | apply Nat.eqb_refl]. }
  assert (Hs' : s' = set_loading None
                  (arm 2000 (set_timers []
                     (set_note (JObj fields)
                        (set_inflight (filter (fun y => negb (wid y =? wid x)) (inflight s)) s))))).
  { unfold s', resolve. rewrite Hex. cbv zeta. f_equal.
    unfold setNote.
    replace (same_value _ (JObj fields)) with false
      by (cbn [note set_inflight]; now destruct (note s)).
    rewrite rerender_tracked by (left; exact Ht).
    unfold returns_early. cbn [note message set_note set_inflight truthy negb orb].
    change (valid (set_note _ _)) with (valid s). rewrite Hv, Hd. reflexivity. }
  rewrite Hs'. cbn [note timers set_loading arm set_timers set_note set_inflight app
                     next_timer now phrase message].
  split; [reflexivity |]. split; [reflexivity |].
  split; intros T HT; rewrite advance_writes_due;
    cbn [timers writes set_loading arm set_timers set_note set_inflight app filter
         next_timer now phrase message];
    unfold is_due; cbn [due].
  - replace (now s + 2000 <=? T)%N with false by (symmetry; apply N.leb_gt; exact HT).
    simpl. apply app_nil_r.
  - replace (now s + 2000 <=? T)%N with true by (symmetry; apply N.leb_le; exact HT).
    reflexivity.
Qed.

(** X22.  Loading a note whose message is a string arms no timer and
    nothing is ever written until the message is edited.  Loading a note
    without a message (the field is missing or null) under a valid phrase
    shows the empty message, which differs from the missing one: a timer is
    armed, and 2000 ms after the load the empty message is written. *)
Theorem loading_a_note_saves_only_a_missing_message (p : string) (n : JsValue) (t0 : N) :
  (forall m, get_prop n "message" = JStr m ->
     exists s, loaded p n t0 = Some s /\
       message s = m /\ timers s = [] /\
       forall T, writes (advance T s) = []) /\
  (truthy n = true -> 3 <= String.length p ->
   get_prop n "message" = JUndefined \/ get_prop n "message" = JNull ->
   exists s, loaded p n t0 = Some s /\
     message s = "" /\
     (forall T, (T < t0 + 2000)%N -> writes (advance T s) = []) /\
     (forall T, (t0 + 2000 <= T)%N -> writes (advance T s) = [(p, "")])).
Proof.
  split.
  - intros m Hm. exists (effect (holding p n m t0)).
    split; [exact (loaded_shown p n m t0 (shown_string n m Hm)) |].
    assert (Hl : effect (holding p n m t0) = set_cleanup false (holding p n m t0)).
    { unfold effect. cbn [note message holding]. rewrite Hm.
      destruct (negb (truthy n)); [reflexivity |].
      destruct (negb (valid (holding p n m t0))); [reflexivity |].
      unfold strict_eq_string. now rewrite String.eqb_refl. }
    rewrite Hl. cbn [message timers set_cleanup holding].
    split; [reflexivity |]. split; [reflexivity |].
    intros T. now rewrite advance_idle_writes.
  - intros Hn Hp Hm. exists (effect (holding p n "" t0)).
    split; [exact (loaded_shown p n "" t0 (shown_missing n Hn Hm)) |].
    assert (Hv : valid (holding p n "" t0) = true) by (unfold valid; now apply Nat.leb_le).
    assert (Hl : effect (holding p n "" t0) = arm 2000 (holding p n "" t0)).
    { unfold effect. cbn [note message holding]. rewrite Hn, Hv.
      destruct Hm as [-> | ->]; reflexivity. }
    rewrite Hl.
    split; [reflexivity |].
    split; intros T HT; rewrite advance_writes_due;
      cbn [timers writes arm app filter];
      cbn [holding timers writes now phrase message app filter];
      unfold is_due; cbn [due].
    + now replace (t0 + 2000 <=? T)%N with false by (symmetry; apply N.leb_gt; exact HT).
    + now replace (t0 + 2000 <=? T)%N with true by (symmetry; apply N.leb_le; exact HT).
Qed.

End Facts.

End AutosaveMore.

(* ===================================================================== *)
(** ** The image operations and the handlers on the reference platform *)
(* ===================================================================== *)

Module ClientExamples.
Import Js Api Reference Handlers Notions Scenarios ClientFacts HandlersFacts.
Local Open Scope list_scope.

(** X7 on the stocked server: the PNG of the note as a data URL. *)
Lemma getImage_outcome_witness :
  getImage (P := scripted script_stocked) "open sesame" (start script_stocked)
  = (inr (image_result "image/png" (map byte_of_ascii (list_ascii_of_string "PNG!"))),
     reached script_stocked 1 [image_request sesame_image]).
Proof.
  exact (proj1 (proj2 (getImage_outcome (P := scripted script_stocked)
                         "open sesame" sesame_image (start script_stocked)
                         (typed_response "image/png" "PNG!")
                         (1%nat : @World _ (scripted script_stocked)) eq_refl eq_refl))
           _ eq_refl eq_refl).
Defined.

(** X8 where the picture is not found: nothing is uploaded. *)
Lemma uploadImageFromUrl_needs_the_image_witness :
  uploadImageFromUrl (P := scripted script_fresh) "open sesame" picture (start script_fresh)
  = (inl (JError "Failed to fetch image: 404"),
     reached script_fresh 1 [image_request picture]).
Proof.
  exact (proj1 (uploadImageFromUrl_needs_the_image (P := scripted script_fresh)
                  "open sesame" picture (start script_fresh) (inr not_found)
                  (1%nat : @World _ (scripted script_fresh)) eq_refl)
           eq_refl).
Defined.

(** X9 on the stocked server: the GIF fetched is posted as [pic.gif]. *)
Lemma uploadImageFromUrl_uploads_witness :
  uploadImageFromUrl (P := scripted script_stocked) "open sesame" picture (start script_stocked)
  = json_call (P := scripted script_stocked)
      (upload_request sesame_image (map byte_of_ascii (list_ascii_of_string "GIF89a"))
         "image/gif" "pic.gif")
      (reached script_stocked 1 [image_request picture]).
Proof.
  exact (uploadImageFromUrl_uploads_what_it_fetched (P := scripted script_stocked)
           "open sesame" picture "image/gif" (start script_stocked)
           (typed_response "image/gif" "GIF89a")
           (1%nat : @World _ (scripted script_stocked)) _ eq_refl eq_refl eq_refl).
Defined.

(** X21 on a server that answers the upsert with the JSON [null]. *)
Lemma getOrCreateNote_reads_again_witness :
  let script := script_answering 200 "null" in
  getOrCreateNote (P := scripted script) " open sesame " (start script)
  = (inl (JError "404 Not Found: note not found"),
     snd (getOrCreateNote (P := scripted script) " open sesame " (start script))).
Proof.
  intros script.
  pose (s1 := snd (getNote (P := scripted script) "open sesame" (start script))).
  pose (s2 := snd (saveNote (P := scripted script) "open sesame" DEFAULT_INIT_MESSAGE s1)).
  rewrite (getOrCreateNote_falsy_write_reads_again (P := scripted script)
             " open sesame " (start script) s1 s2
             (JError "404 Not Found: note not found") JNull
             eq_refl (or_introl eq_refl) eq_refl).
  reflexivity.
Defined.

(** X12 on the fresh server: the note created is shown. *)
Lemma onLoad_outcome_witness :
  let u := typed_in script_fresh in
  onLoad u
  = (inr tt,
     {| view := settled (view u) welcome_note (JStr DEFAULT_INIT_MESSAGE) JNull [];
        net := snd (getOrCreateNote (P := scripted script_fresh) "open sesame"
                      (start script_fresh)) |}).
Proof.
  exact (proj1 (onLoad_outcome (P := scripted script_fresh) (typed_in script_fresh) eq_refl)
           welcome_note _ eq_refl eq_refl).
Defined.

(** X13 on the stocked server: the image of the note is shown. *)
Lemma onGetImage_outcome_witness :
  let u := typed_in script_stocked in
  onGetImage u
  = (inr tt,
     {| view := settled (view u) JNull (JStr "")
                  (JStr "data:image/png;base64,UE5HIQ==") [];
        net := reached script_stocked 1 [image_request sesame_image] |}).
Proof.
  exact (proj1 (proj1 (onGetImage_outcome (P := scripted script_stocked)
                         (typed_in script_stocked) eq_refl)
                  (image_result "image/png" (map byte_of_ascii (list_ascii_of_string "PNG!")))
                  (reached script_stocked 1 [image_request sesame_image]) eq_refl)).
Defined.

(** X14 on the stocked server: the delete, then the read of the note. *)
Lemma onDeleteImage_outcome_witness :
  let u := typed_in script_stocked in
  fst (onDeleteImage u) = inr tt /\
  view (snd (onDeleteImage u)) = settled (view u) hello_note (JStr "") JNull [] /\
  map method (log (net (snd (onDeleteImage u)))) = [DELETE; GET].
Proof.
  intros u.
  pose (st1 := snd (deleteImage (P := scripted script_stocked) "open sesame" (net u))).
  pose (st2 := snd (getNote (P := scripted script_stocked) "open sesame" st1)).
  rewrite (proj1 (proj2 (onDeleteImage_outcome (P := scripted script_stocked) u eq_refl)
                    (JObj [("message", JStr "image deleted")]) st1 eq_refl)
             hello_note st2 eq_refl).
  repeat split.
Defined.

(** X15 on the stocked server: the upload is announced and the note read
    again. *)
Lemma onUploadImage_outcome_witness :
  let u := typed_in script_stocked in
  fst (onUploadImage u) = inr tt /\
  view (snd (onUploadImage u))
  = settled (view u) hello_note (JStr "") JNull [("Uploaded", JStr "pic.gif (image/gif)")] /\
  map method (log (net (snd (onUploadImage u)))) = [GET; POST; GET].
Proof.
  intros u.
  pose (st1 := snd (uploadImageFromUrl (P := scripted script_stocked)
                      "open sesame" picture (net u))).
  pose (st2 := snd (getNote (P := scripted script_stocked) "open sesame" st1)).
  rewrite (proj1 (proj2 (onUploadImage_outcome (P := scripted script_stocked) u eq_refl
                           ltac:(discriminate))
                    (JObj [("id", JStr "i1"); ("fileName", JStr "pic.gif");
                           ("contentType", JStr "image/gif"); ("created", JStr "2024-01-02")])
                    "pic.gif" "image/gif" st1 eq_refl eq_refl eq_refl)
             hello_note st2 eq_refl).
  repeat split.
Defined.

(** X16 on a phrase of three blanks. *)
Lemma onLoad_untrimmed_witness :
  let u := mounted (P := scripted script_fresh) "   " "" (start script_fresh) in
  valid (view u) = true /\
  normalizePhrase "   " = "" /\
  net (snd (onLoad u))
  = snd (getOrCreateNote (P := scripted script_fresh) "" (start script_fresh)).
Proof.
  exact (onLoad_checks_the_untrimmed_phrase (P := scripted script_fresh)
           (mounted (P := scripted script_fresh) "   " "" (start script_fresh))
           eq_refl (le_n 3)).
Defined.

(** X11 on the phrase [ab], and on [open sesame] without a URL typed. *)
Lemma handlers_check_witness :
  only_alerts "Invalid" (JStr "Passphrase must be at least 3 characters.")
    (mounted (P := scripted script_stocked) "ab" picture (start script_stocked))
    (onDeleteImage (mounted (P := scripted script_stocked) "ab" picture (start script_stocked))) /\
  only_alerts "Missing" (JStr "Enter a direct image URL to upload.")
    (mounted (P := scripted script_stocked) "open sesame" "" (start script_stocked))
    (onUploadImage (mounted (P := scripted script_stocked) "open sesame" "" (start script_stocked))).
Proof.
  split.
  - exact (proj2 (proj2 (proj2 (proj1 (handlers_check_before_any_request
                                         (P := scripted script_stocked)
                                         (mounted "ab" picture (start script_stocked)))
                                  eq_refl)))).
  - exact (proj2 (handlers_check_before_any_request (P := scripted script_stocked)
                    (mounted "open sesame" "" (start script_stocked)))
             eq_refl eq_refl).
Defined.

End ClientExamples.

(* ===================================================================== *)
(** ** Further autosave schedules *)
(* ===================================================================== *)

Module AutosaveMoreExamples.
Import Js Autosave Reference AutosaveMore.
Local Open Scope list_scope.

(** X18 on the screen whose write of [a] is in flight: the network fails. *)
Lemma failed_autosave_witness :
  let s' := resolve 0 (inl (JError "Network request failed")) saving in
  alerts s' = [JError "Network request failed"] /\ loading s' = None /\
  inflight s' = [] /\
  forall T, writes (advance T s') = [("abc", "a")].
Proof.
  intros s'.
  destruct (failed_autosave_is_not_retried saving
              {| wid := 0; w_phrase := "abc"; w_message := "a" |}
              (JError "Network request failed") (or_introl eq_refl))
    as (Ha & Hl & _ & _ & _ & _ & Hw).
  split; [exact Ha |]. split; [exact Hl |]. split; [reflexivity |].
  intros T. exact (eq_trans (Hw T) eq_refl).
Defined.

(** X19 on the phrase [ab], which is too short, with a note held, and on
    the phrase [abc] without a note. *)
Lemma no_autosave_witness :
  (forall events T,
      timers (run events (holding "ab" hello "hello" 0)) = [] /\
      writes (advance T (run events (holding "ab" hello "hello" 0))) = []) /\
  (forall (edits : list (N * string)) T,
      let s' := run (map (fun e => (fst e, Edit (snd e))) edits) (holding "abc" JNull "" 0) in
      timers s' = [] /\ note s' = JNull /\ writes (advance T s') = []).
Proof.
  split.
  - exact (proj1 (no_autosave_without_note_or_valid_phrase (holding "ab" hello "hello" 0) eq_refl)
             eq_refl).
  - exact (proj2 (no_autosave_without_note_or_valid_phrase (holding "abc" JNull "" 0) eq_refl)
             eq_refl).
Defined.

(** X20 on the screen whose write of [a] is in flight: the server answers
    with a note that has no message. *)
Lemma unechoed_answer_witness :
  let s' := resolve 0 (inr (JObj [])) saving in
  note s' = JObj [] /\
  timers s' = [{| tid := 2; due := 4000; t_phrase := "abc"; t_message := "a" |}] /\
  (forall T, (T < 4000)%N -> writes (advance T s') = [("abc", "a")]) /\
  (forall T, (4000 <= T)%N -> writes (advance T s') = [("abc", "a"); ("abc", "a")]).
Proof.
  exact (unechoed_answer_saves_again saving
           {| wid := 0; w_phrase := "abc"; w_message := "a" |} []
           eq_refl (or_introl eq_refl) eq_refl eq_refl).
Defined.

(** X22 on a note without a message, loaded under [abc] at time 0. *)
Lemma loading_a_note_witness :
  exists s, loaded "abc" (JObj []) 0 = Some s /\
    message s = "" /\
    (forall T, (T < 2000)%N -> writes (advance T s) = []) /\
    (forall T, (2000 <= T)%N -> writes (advance T s) = [("abc", "")]).
Proof.
  exact (proj2 (loading_a_note_saves_only_a_missing_message "abc" (JObj []) 0)
           eq_refl (le_n 3) (or_introl eq_refl)).
Defined.

(** X17 on the note [hello] loaded under [abc], after the edit [a] and the
    answer to its write. *)
Lemma autosave_keeps_one_timer_witness :
  let s := run [(0%N, Edit "a"); (2500%N, Edit "ab");
                (3000%N, Resolve 0 (inr (JObj [("message", JStr "a")])))] opened in
  length (timers s) <= 1 /\
  forall tm, In tm (timers s) ->
    saveTimeout s = Some (tid tm) /\ t_phrase tm = "abc" /\ t_message tm = message s /\
    3 <= String.length "abc" /\ truthy (note s) = true /\
    strict_eq_string (message s) (get_prop (note s) "message") = false.
Proof.
  exact (autosave_keeps_one_timer "abc" hello 0 opened
           [(0%N, Edit "a"); (2500%N, Edit "ab");
            (3000%N, Resolve 0 (inr (JObj [("message", JStr "a")])))] eq_refl).
Defined.

End AutosaveMoreExamples.
